(** * Hierarchical contextual chunking: a shallow embedding

    The development follows [contextual_rag_lambda.py] (the deployed
    chunker) and [test.py] (the harness copy with a mocked runtime and a
    guarded context call).  Python values are modelled as the code has them:
    a [str] is a sequence of code points, integers are [Z], a raised
    exception is a [Raise] result, and the calls to the text-generation
    service are threaded through a call counter.  The prompt text is kept
    as the pair of strings it is built from.  Standard output is taken to
    be a UTF-8 text stream with the strict error handler: a [print] raises
    [UnicodeEncodeError] exactly when its text holds a surrogate code
    point; what is written is not kept. *)

From Stdlib Require Import ZArith NArith List Lia Bool String Ascii DecimalString.
Import ListNotations.
Local Open Scope Z_scope.
Set Warnings "-register-all".

(* ================================================================== *)
(** ** Python primitives used by the chunkers *)
(* ================================================================== *)

Module Py.

(** A Python [str]: its code points, in order. *)
Definition str : Type := list N.

(** Code points of an ASCII literal. *)
Definition lit (s : string) : str := map N_of_ascii (list_ascii_of_string s).

(** [str.isspace] on one code point: the separators of [str.split()]. *)
Definition isspace (c : N) : bool :=
  ((9 <=? c) && (c <=? 13) || (28 <=? c) && (c <=? 32)
   || (c =? 133) || (c =? 160) || (c =? 5760)
   || (8192 <=? c) && (c <=? 8202)
   || (c =? 8232) || (c =? 8233) || (c =? 8239) || (c =? 8287)
   || (c =? 12288))%N.

(** The word being scanned, once a separator or the end is reached. *)
Definition flush (cur : str) : list str :=
  match cur with
  | [] => []
  | _ :: _ => [cur]
  end.

(** [text.split()]: maximal runs of non-whitespace, left to right.  [cur]
    holds the characters of the word under the cursor. *)
Fixpoint split_from (cur : str) (s : str) : list str :=
  match s with
  | [] => flush cur
  | c :: rest =>
      if isspace c then flush cur ++ split_from [] rest
      else split_from (cur ++ [c]) rest
  end.

Definition split (s : str) : list str := split_from [] s.

(** [sep.join(ws)]. *)
Fixpoint join (sep : str) (ws : list str) : str :=
  match ws with
  | [] => []
  | w :: rest =>
      match rest with
      | [] => w
      | _ :: _ => w ++ sep ++ join sep rest
      end
  end.

(** [len(l)] as a Python integer. *)
Definition len {A : Type} (l : list A) : Z := Z.of_nat (List.length l).

(** A slice bound brought into [0 .. n]: negative bounds count from the
    end, anything out of range is clipped. *)
Definition clip (n i : Z) : Z :=
  if i <? 0 then Z.max (i + n) 0 else Z.min i n.

(** [l[lo:hi]]. *)
Definition slice {A : Type} (l : list A) (lo hi : Z) : list A :=
  let a := clip (len l) lo in
  let b := clip (len l) hi in
  firstn (Z.to_nat (b - a)) (skipn (Z.to_nat a) l).

(** The exceptions that can reach the chunkers.  [ClientError text] is an
    exception a client raises itself, [text] being its [str()]; the others
    are raised by the interpreter. *)
Inductive exn : Type :=
| ValueError
| ClientError (text : str)
| JSONDecodeError
| KeyError
| IndexError
| TypeError
| UnicodeEncodeError.

(** The code points UTF-8 refuses: the surrogates U+D800 .. U+DFFF. *)
Definition is_surrogate (c : N) : bool := ((55296 <=? c) && (c <=? 57343))%N.

(** [s.encode('utf-8')] succeeds. *)
Definition utf8_encodable (s : str) : bool :=
  forallb (fun c => negb (is_surrogate c)) s.

(** [str(e)] can be encoded.  The messages of the interpreter's own
    exceptions are ASCII (a key or a character is shown by its [repr],
    which escapes surrogates); a client's exception brings its text. *)
Definition exn_encodable (e : exn) : bool :=
  match e with
  | ClientError text => utf8_encodable text
  | _ => true
  end.

(** [str(n)] of an integer: its decimal digits. *)
Definition str_of_int (n : Z) : str := lit (NilZero.string_of_int (Z.to_int n)).

(** [json.loads(json.dumps(s))] on a string.  [dumps] writes every code
    point outside ASCII as [\uXXXX] escapes, one above U+FFFF as a
    surrogate pair; [loads] reads a high-surrogate escape followed by a
    low-surrogate escape as one code point.  So a high surrogate standing
    next to a low one comes back as the code point the pair encodes, and
    everything else comes back as it was. *)
Fixpoint json_roundtrip (s : str) : str :=
  match s with
  | [] => []
  | c :: rest =>
      match rest with
      | d :: rest' =>
          if ((55296 <=? c) && (c <=? 56319) && (56320 <=? d) && (d <=? 57343))%N
          then (65536 + (c - 55296) * 1024 + (d - 56320))%N :: json_roundtrip rest'
          else c :: json_roundtrip rest
      | [] => [c]
      end
  end.

Inductive result (A : Type) : Type :=
| Ok (a : A)
| Raise (e : exn).

Arguments Ok {A} a.
Arguments Raise {A} e.

Definition rbind {A B : Type} (r : result A) (k : A -> result B) : result B :=
  match r with
  | Ok a => k a
  | Raise e => Raise e
  end.

(** Number of items of [range(start, stop, step)] for a non-zero step. *)
Definition range_len (start stop step : Z) : Z :=
  if 0 <? step then
    if start <? stop then (stop - start - 1) / step + 1 else 0
  else
    if stop <? start then (start - stop - 1) / (- step) + 1 else 0.

(** The items a range iterator hands out: it yields its current value,
    adds the step and counts down. *)
Fixpoint range_items (n : nat) (start step : Z) : list Z :=
  match n with
  | O => []
  | S k => start :: range_items k (start + step) step
  end.

(** [range(start, stop, step)], which refuses a zero step. *)
Definition range (start stop step : Z) : result (list Z) :=
  if step =? 0 then Raise ValueError
  else Ok (range_items (Z.to_nat (range_len start stop step)) start step).

(** Values produced by [json.loads]. *)
Inductive json : Type :=
| JNull
| JBool (b : bool)
| JNum (n : Z)
| JStr (s : str)
| JArr (items : list json)
| JObj (fields : list (str * json)).

Definition str_eqb (a b : str) : bool :=
  if list_eq_dec N.eq_dec a b then true else false.

Fixpoint lookup (k : str) (fields : list (str * json)) : option json :=
  match fields with
  | [] => None
  | (k', v) :: rest => if str_eqb k k' then Some v else lookup k rest
  end.

(** [v[k]] for a string key. *)
Definition getitem_key (v : json) (k : str) : result json :=
  match v with
  | JObj fields =>
      match lookup k fields with
      | Some x => Ok x
      | None => Raise KeyError
      end
  | _ => Raise TypeError
  end.

(** [v[0]]. *)
Definition getitem_0 (v : json) : result json :=
  match v with
  | JArr items =>
      match items with
      | x :: _ => Ok x
      | [] => Raise IndexError
      end
  | JStr s =>
      match s with
      | c :: _ => Ok (JStr [c])
      | [] => Raise IndexError
      end
  | JObj _ => Raise KeyError
  | _ => Raise TypeError
  end.

End Py.

Import Py.

Notation "x <- r ;; k" := (rbind r (fun x => k))
  (at level 100, r at next level, right associativity).

(* ================================================================== *)
(** ** The chunkers *)
(* ================================================================== *)

Module Chunker.

(** The module-level constants of a chunker file. *)
Record config : Type := {
  PARENT_CHUNK_SIZE : Z;
  CHILD_CHUNK_SIZE : Z;
  CHUNK_OVERLAP : Z
}.

(** [contextual_rag_lambda.py], lines 11-13. *)
Definition lambda_config : config :=
  {| PARENT_CHUNK_SIZE := 1024; CHILD_CHUNK_SIZE := 512; CHUNK_OVERLAP := 30 |}.

(** [test.py], lines 6-8. *)
Definition test_config : config :=
  {| PARENT_CHUNK_SIZE := 100; CHILD_CHUNK_SIZE := 50; CHUNK_OVERLAP := 10 |}.

Definition shipped_configs : list config := [lambda_config; test_config].

(** *** Parent split (first loop of [chunk]) *)

Definition parent_chunk_at (cfg : config) (words : list str) (i : Z) : str :=
  let end_idx := Z.min (i + PARENT_CHUNK_SIZE cfg) (len words) in
  join (lit " ") (slice words i end_idx).

Definition split_parent (cfg : config) (text : str) : result (list str) :=
  let words := split text in
  offs <- range 0 (len words) (PARENT_CHUNK_SIZE cfg) ;;
  Ok (map (parent_chunk_at cfg words) offs).

(** *** Child split (inner loop of [chunk]) *)

Definition start_idx (cfg : config) (i : Z) : Z :=
  if 0 <? i then i - CHUNK_OVERLAP cfg else 0.

Definition end_idx (cfg : config) (W i : Z) : Z :=
  Z.min (i + CHILD_CHUNK_SIZE cfg) W.

(** The guard in front of [continue]. *)
Definition skipped (cfg : config) (W i : Z) : bool :=
  (end_idx cfg W i - start_idx cfg i <? CHILD_CHUNK_SIZE cfg / 2) && (0 <? i).

Definition child_words (cfg : config) (parent_words : list str) (i : Z) : list str :=
  slice parent_words (start_idx cfg i) (end_idx cfg (len parent_words) i).

(** What one iteration at offset [i] contributes. *)
Definition emit (cfg : config) (parent_words : list str) (i : Z) : list (list str) :=
  if skipped cfg (len parent_words) i then []
  else [child_words cfg parent_words i].

(** The child windows of one parent window, as word sequences, in the
    order the loop reaches them. *)
Definition split_child (cfg : config) (parent_words : list str) : result (list (list str)) :=
  offs <- range 0 (len parent_words) (CHILD_CHUNK_SIZE cfg - CHUNK_OVERLAP cfg) ;;
  Ok (flat_map (emit cfg parent_words) offs).

Fixpoint children_of (cfg : config) (parents : list str) : result (list (list str)) :=
  match parents with
  | [] => Ok []
  | p :: rest =>
      cs <- split_child cfg (split p) ;;
      more <- children_of cfg rest ;;
      Ok (cs ++ more)
  end.

(** Every child window of a document, parent-major. *)
Definition document_windows (cfg : config) (text : str) : result (list (list str)) :=
  parents <- split_parent cfg text ;;
  children_of cfg parents.

(** *** The inner loop, one iteration at a time

    [for i in range(0, W, stride)] seen as the loop it runs: test [i < W],
    run the body, add the stride. *)

Record loop_state : Type := {
  offset : Z;
  emitted : list (list str)
}.

Definition loop_step (cfg : config) (parent_words : list str) (s : loop_state)
  : option loop_state :=
  if offset s <? len parent_words then
    Some {| offset := offset s + (CHILD_CHUNK_SIZE cfg - CHUNK_OVERLAP cfg);
            emitted := emitted s ++ emit cfg parent_words (offset s) |}
  else None.

Fixpoint loop_run (cfg : config) (parent_words : list str) (fuel : nat) (s : loop_state)
  : option (list (list str)) :=
  match fuel with
  | O => None
  | S fuel' =>
      match loop_step cfg parent_words s with
      | None => Some (emitted s)
      | Some s' => loop_run cfg parent_words fuel' s'
      end
  end.

Definition loop_init : loop_state := {| offset := 0; emitted := [] |}.

(** *** The text-generation service *)

(** The request of [get_chunk_context]: the prompt is a fixed template
    around the parent window and the child window; model id, sampling
    temperature and system prompt are constants. *)
Record request : Type := {
  req_document : str;
  req_chunk : str
}.

(** What [invoke_model] followed by [json.loads(response['body'].read())]
    can do: the call raises, or it returns a body that parses or fails to
    parse. *)
Inductive invoke_outcome : Type :=
| InvokeRaises (e : exn)
| InvokeReturns (loaded : result json).

(** A runtime client; the first argument is the number of calls made
    before, so two calls with one request may answer differently. *)
Record client : Type := {
  invoke_model : nat -> request -> invoke_outcome
}.

(** Computations that call the service: the call counter is kept whether
    the computation returns or raises. *)
Definition M (A : Type) : Type := nat -> result A * nat.

Definition ret {A : Type} (a : A) : M A := fun n => (Ok a, n).

Definition bind {A B : Type} (c : M A) (k : A -> M B) : M B :=
  fun n =>
    match c n with
    | (Ok a, n') => k a n'
    | (Raise e, n') => (Raise e, n')
    end.

Definition lift {A : Type} (r : result A) : M A := fun n => (r, n).

(** [try: c  except Exception: handler]. *)
Definition try_except {A : Type} (c : M A) (handler : exn -> M A) : M A :=
  fun n =>
    match c n with
    | (Ok a, n') => (Ok a, n')
    | (Raise e, n') => handler e n'
    end.

(** [print(s)] on a standard output that encodes in UTF-8 and refuses
    what it cannot encode; the text written is not kept. *)
Definition print (s : str) : M unit :=
  lift (if utf8_encodable s then Ok tt else Raise UnicodeEncodeError).

(** [print(f"Error calling Bedrock API: {e}")] ([test.py], line 109): the
    prefix is ASCII, so the text is encodable when [str(e)] is. *)
Definition print_error (e : exn) : M unit :=
  lift (if exn_encodable e then Ok tt else Raise UnicodeEncodeError).

(** [response_body['content'][0]['text']]. *)
Definition extract_text (response_body : json) : result json :=
  content <- getitem_key response_body (lit "content") ;;
  first <- getitem_0 content ;;
  getitem_key first (lit "text").

(** The call and the parsing of its answer. *)
Definition call_bedrock (rt : client) (document chunk_content : str) : M json :=
  fun n =>
    match invoke_model rt n {| req_document := document; req_chunk := chunk_content |} with
    | InvokeRaises e => (Raise e, S n)
    | InvokeReturns loaded => (response_body <- loaded ;; extract_text response_body, S n)
    end.

(** The string returned by the [except] branch of [test.py], line 111:
    "[컨텍스트: 이 청크는 문서의 일부입니다]". *)
Definition FALLBACK_CONTEXT : str :=
  [91; 52968; 53581; 49828; 53944; 58; 32; 51060; 32; 52397; 53356; 45716;
   32; 47928; 49436; 51032; 32; 51068; 48512; 51077; 45768; 45796; 93]%N.

(** The two copies of the class. *)
Inductive variant : Type :=
| Deployed   (* contextual_rag_lambda.py: the failure propagates *)
| Harness.   (* test.py: the call is wrapped in try/except *)

(** A [print] that only [test.py] has. *)
Definition harness_print (v : variant) (s : str) : M unit :=
  match v with
  | Deployed => ret tt
  | Harness => print s
  end.

(** The progress lines of [test.py]: line 138,
    "텍스트를 {n}개의 부모 청크로 나누었습니다."; line 142,
    "부모 청크 {p} 처리 중..."; line 158,
    "  자식 청크 생성: {start}~{end} ({chars} 글자)"; line 161,
    "  Bedrock API 호출하여 컨텍스트 정보 가져오는 중..."; line 168,
    "  청크 처리 완료". *)
Definition line_parents (n : Z) : str :=
  [53581; 49828; 53944; 47484; 32]%N ++ str_of_int n
  ++ [44060; 51032; 32; 48512; 47784; 32; 52397; 53356; 47196; 32; 45208; 45572;
      50632; 49845; 45768; 45796; 46]%N.

Definition line_parent (p : Z) : str :=
  [48512; 47784; 32; 52397; 53356; 32]%N ++ str_of_int p
  ++ [32; 52376; 47532; 32; 51473; 46; 46; 46]%N.

Definition line_child (start_idx end_idx chars : Z) : str :=
  [32; 32; 51088; 49885; 32; 52397; 53356; 32; 49373; 49457; 58; 32]%N
  ++ str_of_int start_idx ++ [126]%N ++ str_of_int end_idx
  ++ [32; 40]%N ++ str_of_int chars ++ [32; 44544; 51088; 41]%N.

Definition line_calling : str :=
  [32; 32; 66; 101; 100; 114; 111; 99; 107; 32; 65; 80; 73; 32; 54840; 52636; 54616;
   50668; 32; 52968; 53581; 49828; 53944; 32; 51221; 48372; 32; 44032; 51256; 50724;
   45716; 32; 51473; 46; 46; 46]%N.

Definition line_done : str :=
  [32; 32; 52397; 53356; 32; 52376; 47532; 32; 50756; 47308]%N.

(** A chunker object: the class it was built from, the constants of its
    module, and the runtime client it calls. *)
Record ContextualChunker : Type := {
  source : variant;
  constants : config;
  bedrock_runtime : client
}.

(** [ContextualChunker(use_mock)]: picks the client and nothing else. *)
Definition ContextualChunker_init (v : variant) (cfg : config)
  (mock boto3_client : client) (use_mock : bool) : result ContextualChunker :=
  Ok {| source := v; constants := cfg;
        bedrock_runtime := if use_mock then mock else boto3_client |}.

Section Assembly.

(** [str()] of a decoded JSON value that is not a string (left open: the
    chunkers only splice it into the chunk or print it). *)
Variable py_repr : json -> str.

(** [f"{context_info}"]. *)
Definition format_value (v : json) : str :=
  match v with
  | JStr s => s
  | _ => py_repr v
  end.

(** [get_chunk_context].  The deployed copy lets a failure through.  The
    harness copy prints the answer inside the [try]; its [except] branch
    prints the exception and returns the fallback, so a failure of that
    second [print] is not caught. *)
Definition get_chunk_context (v : variant) (rt : client) (document chunk_content : str)
  : M json :=
  match v with
  | Deployed => call_bedrock rt document chunk_content
  | Harness =>
      try_except
        (bind (call_bedrock rt document chunk_content)
           (fun assistant_response =>
              bind (print (lit "Assistant response: " ++ format_value assistant_response))
                (fun _ => ret assistant_response)))
        (fun e => bind (print_error e) (fun _ => ret (JStr FALLBACK_CONTEXT)))
  end.

(** [f"{context_info}\n\n{child_chunk}"]. *)
Definition contextualized (context_info : json) (child_chunk : str) : str :=
  format_value context_info ++ [10; 10]%N ++ child_chunk.

(** The inner loop over the offsets of one parent window.  In the harness
    copy each chunk is printed as soon as it is made. *)
Fixpoint child_loop (self : ContextualChunker) (parent_chunk : str)
  (parent_words : list str) (offs : list Z) : M (list str) :=
  match offs with
  | [] => ret []
  | i :: rest =>
      if skipped (constants self) (len parent_words) i then
        child_loop self parent_chunk parent_words rest
      else
        let child_chunk := join (lit " ") (child_words (constants self) parent_words i) in
        bind (harness_print (source self)
                (line_child (start_idx (constants self) i)
                            (end_idx (constants self) (len parent_words) i)
                            (len child_chunk)))
          (fun _ =>
        bind (harness_print (source self) line_calling)
          (fun _ =>
        bind (get_chunk_context (source self) (bedrock_runtime self) parent_chunk child_chunk)
          (fun context_info =>
        let contextualized_chunk := contextualized context_info child_chunk in
        bind (harness_print (source self)
                (lit "contextualized_chunk: " ++ contextualized_chunk))
          (fun _ =>
        bind (harness_print (source self) line_done)
          (fun _ =>
        bind (child_loop self parent_chunk parent_words rest)
          (fun more => ret (contextualized_chunk :: more)))))))
  end.

(** The outer loop over the parent windows; [p_idx] is the index
    [enumerate] hands out in the harness copy. *)
Fixpoint parent_loop (self : ContextualChunker) (p_idx : Z) (parent_chunks : list str)
  : M (list str) :=
  match parent_chunks with
  | [] => ret []
  | parent_chunk :: rest =>
      bind (harness_print (source self) (line_parent (p_idx + 1)))
        (fun _ =>
      let parent_words := split parent_chunk in
      bind (lift (range 0 (len parent_words)
                    (CHILD_CHUNK_SIZE (constants self) - CHUNK_OVERLAP (constants self))))
        (fun offs =>
      bind (child_loop self parent_chunk parent_words offs)
        (fun chunks =>
      bind (parent_loop self (p_idx + 1) rest)
        (fun more => ret (chunks ++ more)))))
  end.

(** [ContextualChunker.chunk]. *)
Definition chunk (self : ContextualChunker) (text : str) : M (list str) :=
  bind (lift (split_parent (constants self) text))
    (fun parent_chunks =>
  bind (harness_print (source self) (line_parents (len parent_chunks)))
    (fun _ => parent_loop self 0 parent_chunks)).

End Assembly.

End Chunker.

Import Chunker.

(* ================================================================== *)
(** ** The child split as the specification describes it *)
(* ================================================================== *)

(** Steps 1-5 of the specification's child split: the window at offset 0
    is [words[0 : min(child_size, W)]]; at a later offset the candidate is
    [words[i - overlap : min(i + child_size, W)]], and a candidate with
    fewer than [child_size // 2] words is dropped and ends the walk. *)
Fixpoint spec_advance (child_size overlap : Z) (words : list str) (offs : list Z)
  : list (list str) :=
  match offs with
  | [] => []
  | i :: rest =>
      if i =? 0 then
        slice words 0 (Z.min child_size (len words))
          :: spec_advance child_size overlap words rest
      else
        let candidate := slice words (i - overlap) (Z.min (i + child_size) (len words)) in
        if len candidate <? child_size / 2 then []
        else candidate :: spec_advance child_size overlap words rest
  end.

Definition spec_split_child (child_size overlap : Z) (words : list str)
  : result (list (list str)) :=
  offs <- range 0 (len words) (child_size - overlap) ;;
  Ok (spec_advance child_size overlap words offs).

(** The loop of the code with [break] in the place of [continue]. *)
Fixpoint emit_until_skip (cfg : config) (parent_words : list str) (offs : list Z)
  : list (list str) :=
  match offs with
  | [] => []
  | i :: rest =>
      if skipped cfg (len parent_words) i then []
      else child_words cfg parent_words i :: emit_until_skip cfg parent_words rest
  end.

(** The last [n] items of a list. *)
Definition lastn {A : Type} (n : nat) (l : list A) : list A :=
  skipn (List.length l - n) l.

(** A word as [split] produces them: not empty, no whitespace inside. *)
Definition is_word (x : str) : Prop :=
  x <> [] /\ Forall (fun c => isspace c = false) x.

(* ================================================================== *)
(** ** Sample inputs *)
(* ================================================================== *)

(** The word ["w<k>"]. *)
Definition w (k : nat) : str :=
  lit "w" ++ lit (NilZero.string_of_uint (Nat.to_uint k)).

(** The words ["w<a>" .. "w<b>"]. *)
Definition ws (a b : nat) : list str := map w (seq a (b + 1 - a)).

(** A document holding the words ["w1" .. "w<n>"], one space apart. *)
Definition doc (n : nat) : str := join (lit " ") (ws 1 n).

(** Constants with an overlap above half the child size. *)
Definition wide_overlap_config : config :=
  {| PARENT_CHUNK_SIZE := 100; CHILD_CHUNK_SIZE := 50; CHUNK_OVERLAP := 30 |}.

(** Constants with an overlap between a quarter and a half of the child
    size. *)
Definition quarter_overlap_config : config :=
  {| PARENT_CHUNK_SIZE := 100; CHILD_CHUNK_SIZE := 50; CHUNK_OVERLAP := 20 |}.

(** Constants whose overlap equals the child size. *)
Definition zero_stride_config : config :=
  {| PARENT_CHUNK_SIZE := 100; CHILD_CHUNK_SIZE := 50; CHUNK_OVERLAP := 50 |}.

(** Constants whose overlap exceeds the child size. *)
Definition negative_stride_config : config :=
  {| PARENT_CHUNK_SIZE := 100; CHILD_CHUNK_SIZE := 50; CHUNK_OVERLAP := 60 |}.

(** A client whose every call fails, with the text "throttled". *)
Definition failing_client : client :=
  {| invoke_model := fun _ _ => InvokeRaises (ClientError (lit "throttled")) |}.


(** A client whose every answer holds the lone surrogate U+DC80. *)
Definition surrogate_client : client :=
  {| invoke_model := fun _ _ =>
       InvokeReturns (Ok (JObj [(lit "content", JArr [JObj [(lit "text", JStr [56448%N])]])])) |}.

(** A client that answers every request with one fixed completion. *)
Definition echo_client : client :=
  {| invoke_model := fun _ _ =>
       InvokeReturns (Ok (JObj [(lit "content", JArr [JObj [(lit "text", JStr (lit "ctx"))]])])) |}.

(* ================================================================== *)
(** ** What the harness copy needs of its output *)
(* ================================================================== *)




(* ================================================================== *)
(** ** The flat chunker and the batch handler *)
(* ================================================================== *)

Module Handler.

(** [SimpleChunker.chunk] ([contextual_rag_lambda.py], lines 21-23). *)
Definition SimpleChunker_chunk (text : str) : result (list str) :=
  let words := split text in
  offs <- range 0 (len words) 100 ;;
  Ok (map (fun i => join (lit " ") (slice words i (i + 100))) offs).

(** The constants under which the parent split cuts as the flat chunker
    does. *)
Definition flat_config : config :=
  {| PARENT_CHUNK_SIZE := 100; CHILD_CHUNK_SIZE := 0; CHUNK_OVERLAP := 0 |}.

(** What the handler layer can raise: the exceptions of the chunkers, an
    attribute looked up on a value that lacks it, and the two [ValueError]s
    the handler raises itself, told apart by their message. *)
Inductive error : Type :=
| Exn (e : exn)
| AttributeError
| ValueErrorWith (message : str).

Inductive outcome (A : Type) : Type :=
| Returned (a : A)
| Raised (e : error).

Arguments Returned {A} a.
Arguments Raised {A} e.

Definition of_result {A : Type} (r : result A) : outcome A :=
  match r with
  | Ok a => Returned a
  | Raise e => Raised (Exn e)
  end.

(** Computations over a state [S] that may raise; the state is kept
    either way. *)
Definition Eff (S A : Type) : Type := S -> outcome A * S.

Definition eret {S A : Type} (a : A) : Eff S A := fun s => (Returned a, s).

Definition eraise {S A : Type} (e : error) : Eff S A := fun s => (Raised e, s).

Definition ebind {S A B : Type} (c : Eff S A) (k : A -> Eff S B) : Eff S B :=
  fun s =>
    match c s with
    | (Returned a, s') => k a s'
    | (Raised e, s') => (Raised e, s')
    end.

Definition pure {S A : Type} (o : outcome A) : Eff S A := fun s => (o, s).

Notation "x <~ c ;; k" := (ebind c (fun x => k))
  (at level 100, c at next level, right associativity).

(** Truth value of a decoded JSON value ([not v], [all([...])]).  Numbers
    are the integers of [json]. *)
Definition truthy (v : json) : bool :=
  match v with
  | JNull => false
  | JBool b => b
  | JNum n => negb (n =? 0)
  | JStr s => match s with [] => false | _ :: _ => true end
  | JArr items => match items with [] => false | _ :: _ => true end
  | JObj fields => match fields with [] => false | _ :: _ => true end
  end.

(** [v.get(k, default)]: only a dict has the method. *)
Definition dict_get (v : json) (k : str) (default : json) : outcome json :=
  match v with
  | JObj fields =>
      match lookup k fields with
      | Some x => Returned x
      | None => Returned default
      end
  | _ => Raised AttributeError
  end.

(** The items [for x in v] runs over: the elements of a list, the
    characters of a string, the keys of a dict; anything else is not
    iterable. *)
Definition iterate (v : json) : outcome (list json) :=
  match v with
  | JArr items => Returned items
  | JStr s => Returned (map (fun c => JStr [c]) s)
  | JObj fields => Returned (map (fun kv => JStr (fst kv)) fields)
  | _ => Raised (Exn TypeError)
  end.

(** The interface [Chunker]: one method, [chunk], here applied to whatever
    value the caller passes. *)
Record Chunker (S : Type) : Type := {
  chunker_chunk : json -> Eff S (list str)
}.

Arguments chunker_chunk {S} _ _ _.

(** [SimpleChunker()]: [text.split()] needs a string. *)
Definition SimpleChunker (S : Type) : Chunker S :=
  {| chunker_chunk := fun text =>
       match text with
       | JStr s => pure (of_result (SimpleChunker_chunk s))
       | _ => eraise AttributeError
       end |}.

(** One output record of [process_content]. *)
Definition content_record (content_type content_metadata : json) (chunk_text : str) : json :=
  JObj [(lit "contentType", content_type);
        (lit "contentMetadata", content_metadata);
        (lit "contentBody", JStr chunk_text)].

(** The loop of [process_content]; [acc] is
    [chunked_content['fileContents']] so far. *)
Fixpoint process_contents {S : Type} (chunker : Chunker S) (contents : list json)
  (acc : list json) : Eff S (list json) :=
  match contents with
  | [] => eret acc
  | content :: rest =>
      content_body <~ pure (dict_get content (lit "contentBody") (JStr [])) ;;
      content_type <~ pure (dict_get content (lit "contentType") (JStr [])) ;;
      content_metadata <~ pure (dict_get content (lit "contentMetadata") (JObj [])) ;;
      words <~ pure (of_result (getitem_key content (lit "contentBody"))) ;;
      chunks <~ chunker_chunk chunker words ;;
      process_contents chunker rest
        (acc ++ map (content_record content_type content_metadata) chunks)
  end.

(** [process_content] ([contextual_rag_lambda.py], lines 207-227). *)
Definition process_content {S : Type} (file_content : json) (chunker : Chunker S)
  : Eff S json :=
  file_contents <~ pure (dict_get file_content (lit "fileContents") (JArr [])) ;;
  contents <~ pure (iterate file_contents) ;;
  records <~ process_contents chunker contents [] ;;
  eret (JObj [(lit "fileContents", JArr records)]).

(** A request sent to the object store.  The body of a put is the JSON
    text of a value; the value stands for it. *)
Inductive s3_request : Type :=
| GetRequest (bucket key : json)
| PutRequest (bucket : json) (key : str) (content : json).

(** What [get_object] followed by
    [json.loads(response['Body'].read().decode('utf-8'))] can do. *)
Inductive get_outcome : Type :=
| GetRaises (e : exn)
| GetReturns (loaded : result json).

(** The object store as the handler sees it; the first argument of each
    operation is the list of requests sent before. *)
Record s3_client : Type := {
  get_object : list s3_request -> json -> json -> get_outcome;
  put_object : list s3_request -> json -> str -> json -> option exn
}.

(** [read_s3_file] (lines 200-202). *)
Definition read_s3_file (s3 : s3_client) (bucket key : json)
  : Eff (list s3_request) json :=
  fun sent =>
    match get_object s3 sent bucket key with
    | GetRaises e => (Raised (Exn e), sent ++ [GetRequest bucket key])
    | GetReturns loaded => (of_result loaded, sent ++ [GetRequest bucket key])
    end.

(** [write_to_s3] (lines 204-205). *)
Definition write_to_s3 (s3 : s3_client) (bucket : json) (key : str) (content : json)
  : Eff (list s3_request) unit :=
  fun sent =>
    match put_object s3 sent bucket key content with
    | Some e => (Raised (Exn e), sent ++ [PutRequest bucket key content])
    | None => (Returned tt, sent ++ [PutRequest bucket key content])
    end.

Section LambdaHandler.

Variable py_repr : json -> str.
Variable s3 : s3_client.

(** [f"Output/{input_key}"]. *)
Definition output_key_of (input_key : json) : str :=
  lit "Output/" ++ format_value py_repr input_key.

(** The loop over the batches of one input file. *)
Fixpoint process_batches (input_bucket : json) (content_batches : list json)
  (processed_batches : list json) : Eff (list s3_request) (list json) :=
  match content_batches with
  | [] => eret processed_batches
  | batch :: rest =>
      input_key <~ pure (dict_get batch (lit "key") JNull) ;;
      if negb (truthy input_key) then
        eraise (ValueErrorWith (lit "Missing uri in content batch"))
      else
        file_content <~ read_s3_file s3 input_bucket input_key ;;
        chunked_content <~ process_content file_content (SimpleChunker _) ;;
        _ <~ write_to_s3 s3 input_bucket (output_key_of input_key) chunked_content ;;
        process_batches input_bucket rest
          (processed_batches ++ [JObj [(lit "key", JStr (output_key_of input_key))]])
  end.

(** The loop over the input files. *)
Fixpoint process_files (input_bucket : json) (input_files : list json)
  (output_files : list json) : Eff (list s3_request) (list json) :=
  match input_files with
  | [] => eret output_files
  | input_file :: rest =>
      content_batches <~ pure (dict_get input_file (lit "contentBatches") (JArr [])) ;;
      file_metadata <~ pure (dict_get input_file (lit "fileMetadata") (JObj [])) ;;
      original_file_location <~
        pure (dict_get input_file (lit "originalFileLocation") (JObj [])) ;;
      batches <~ pure (iterate content_batches) ;;
      processed_batches <~ process_batches input_bucket batches [] ;;
      process_files input_bucket rest
        (output_files
         ++ [JObj [(lit "originalFileLocation", original_file_location);
                   (lit "fileMetadata", file_metadata);
                   (lit "contentBatches", JArr processed_batches)]])
  end.

(** [lambda_handler] (lines 142-197); the [context] argument is unused
    and logging is left out. *)
Definition lambda_handler (event : json) : Eff (list s3_request) json :=
  input_files <~ pure (dict_get event (lit "inputFiles") JNull) ;;
  input_bucket <~ pure (dict_get event (lit "bucketName") JNull) ;;
  if negb (truthy input_files && truthy input_bucket) then
    eraise (ValueErrorWith (lit "Missing required input parameters"))
  else
    files <~ pure (iterate input_files) ;;
    output_files <~ process_files input_bucket files [] ;;
    eret (JObj [(lit "outputFiles", JArr output_files)]).

End LambdaHandler.

End Handler.

Import Handler.

(* ================================================================== *)
(** ** Shapes of what the handler reads and writes *)
(* ================================================================== *)

(** A content item [process_content] accepts with the flat chunker: a dict
    whose ['contentBody'] is a string. *)
Definition chunkable (content : json) : Prop :=
  exists fields body,
    content = JObj fields /\ lookup (lit "contentBody") fields = Some (JStr body).

(** The records [process_content] makes of one content item with the flat
    chunker: one per chunk of its body, each with the item's type and
    metadata (or the defaults of [get]). *)
Definition records_for (content : json) (records : list json) : Prop :=
  exists fields body chunks content_type content_metadata,
    content = JObj fields
    /\ lookup (lit "contentBody") fields = Some (JStr body)
    /\ SimpleChunker_chunk body = Ok chunks
    /\ dict_get content (lit "contentType") (JStr []) = Returned content_type
    /\ dict_get content (lit "contentMetadata") (JObj []) = Returned content_metadata
    /\ records = map (content_record content_type content_metadata) chunks.

(** An object as the handler writes it: a dict with the one key
    ['fileContents'], holding records whose body is a string of 1 to 100
    words. *)
Definition written_object (content : json) : Prop :=
  exists records,
    content = JObj [(lit "fileContents", JArr records)]
    /\ Forall (fun r => exists content_type content_metadata body,
                 r = content_record content_type content_metadata body
                 /\ 1 <= len (split body) <= 100) records.

Section Traces.

Variable py_repr : json -> str.
Variable bucket : json.

(** Requests of batches carried through: each read of a key is followed
    by the write of ["Output/" + key] to the same bucket. *)
Inductive paired_trace : list s3_request -> Prop :=
| paired_nil : paired_trace []
| paired_cons key content rest :
    truthy key = true ->
    written_object content ->
    paired_trace rest ->
    paired_trace (GetRequest bucket key
                    :: PutRequest bucket (output_key_of py_repr key) content :: rest).

(** Requests of a run that may have stopped: paired batches, then
    possibly one read without its write. *)
Inductive batch_trace : list s3_request -> Prop :=
| batch_paired sent : paired_trace sent -> batch_trace sent
| batch_stopped sent key :
    truthy key = true ->
    paired_trace sent -> batch_trace (sent ++ [GetRequest bucket key]).

End Traces.

(** The output file the handler reports for an input file whose batches
    carry the keys [keys]. *)
Definition output_file_for (py_repr : json -> str) (input_file : json) (keys : list json)
  (output_file : json) : Prop :=
  exists original_file_location file_metadata,
    dict_get input_file (lit "originalFileLocation") (JObj [])
    = Returned original_file_location
    /\ dict_get input_file (lit "fileMetadata") (JObj []) = Returned file_metadata
    /\ output_file
       = JObj [(lit "originalFileLocation", original_file_location);
               (lit "fileMetadata", file_metadata);
               (lit "contentBatches",
                JArr (map (fun key => JObj [(lit "key", JStr (output_key_of py_repr key))])
                          keys))].

(** The keys of the reads in a list of requests, in order. *)
Fixpoint read_keys (sent : list s3_request) : list json :=
  match sent with
  | [] => []
  | GetRequest _ key :: rest => key :: read_keys rest
  | PutRequest _ _ _ :: rest => read_keys rest
  end.

(** The record the handler reports for a batch read under [key]. *)
Definition key_record (py_repr : json -> str) (key : json) : json :=
  JObj [(lit "key", JStr (output_key_of py_repr key))].

(** An input file, the keys of its batches and the output file reported
    for it. *)
Definition file_result (py_repr : json -> str) (input_file : json)
  (result : list json * json) : Prop :=
  exists content_batches batches,
    dict_get input_file (lit "contentBatches") (JArr []) = Returned content_batches
    /\ iterate content_batches = Returned batches
    /\ Forall2 (fun batch key => dict_get batch (lit "key") JNull = Returned key)
               batches (fst result)
    /\ output_file_for py_repr input_file (fst result) (snd result).

(** An object store holding one object, ["in/a.json"], whose body is a
    file with one content item of 230 words; writes succeed. *)
Definition sample_file : json :=
  JObj [(lit "fileContents",
         JArr [JObj [(lit "contentBody", JStr (doc 230));
                     (lit "contentType", JStr (lit "TEXT"));
                     (lit "contentMetadata", JObj [])]])].

Definition sample_s3 : s3_client :=
  {| get_object := fun _ _ key =>
       match key with
       | JStr k => if str_eqb k (lit "in/a.json") then GetReturns (Ok sample_file)
                   else GetRaises (ClientError (lit "NoSuchKey"))
       | _ => GetRaises (ClientError (lit "NoSuchKey"))
       end;
     put_object := fun _ _ _ _ => None |}.

Definition sample_input_file : json :=
  JObj [(lit "contentBatches", JArr [JObj [(lit "key", JStr (lit "in/a.json"))]]);
        (lit "fileMetadata", JObj [(lit "source", JStr (lit "upload"))]);
        (lit "originalFileLocation", JObj [(lit "type", JStr (lit "S3"))])].

Definition sample_event : json :=
  JObj [(lit "inputFiles", JArr [sample_input_file]);
        (lit "bucketName", JStr (lit "bkt"))].

(* ================================================================== *)
(** ** The mocked runtime of [test.py] *)
(* ================================================================== *)

(** A line break and the eight blanks that indent the prompt template. *)
Definition indent : str := 10%N :: repeat 32%N 8.

(** [user_prompt] of [get_chunk_context] ([test.py], lines 52-62). *)
Definition user_prompt (whole_document chunk_content : str) : str :=
  indent ++ lit "<document>"
  ++ indent ++ whole_document
  ++ indent ++ lit "</document>"
  ++ indent ++ lit "Here is the chunk we want to situate within the whole document."
  ++ indent ++ lit "<chunk>"
  ++ indent ++ chunk_content
  ++ indent ++ lit "</chunk>"
  ++ indent ++ lit "Please give a short succinct context to situate this chunk within the overall document for the purposes of improving search retrieval of the chunk."
  ++ indent ++ lit "Mention the title of the header that this chunk belongs to, followed by a short succinct context."
  ++ indent ++ lit "Answer in Korean.".

(** The fixed pieces of the prompt: up to the document, from the document
    to the opening chunk tag, and after the closing chunk tag. *)
Definition prompt_opening : str := indent ++ lit "<document>" ++ indent.

Definition prompt_between : str :=
  indent ++ lit "</document>"
  ++ indent ++ lit "Here is the chunk we want to situate within the whole document."
  ++ indent.

Definition prompt_closing : str :=
  indent ++ lit "Please give a short succinct context to situate this chunk within the overall document for the purposes of improving search retrieval of the chunk."
  ++ indent ++ lit "Mention the title of the header that this chunk belongs to, followed by a short succinct context."
  ++ indent ++ lit "Answer in Korean.".

(** [s] begins with [sub]. *)
Fixpoint starts_with (sub s : str) : bool :=
  match sub with
  | [] => true
  | a :: sub' =>
      match s with
      | [] => false
      | b :: s' => (a =? b)%N && starts_with sub' s'
      end
  end.

(** [s.find(sub)], counting from [i]: the lowest index at which [sub]
    occurs, or -1. *)
Fixpoint find_from (sub s : str) (i : Z) : Z :=
  if starts_with sub s then i
  else
    match s with
    | [] => -1
    | _ :: rest => find_from sub rest (i + 1)
    end.

Definition find (sub s : str) : Z := find_from sub s 0.

(** [s.lstrip()] and [s.strip()]. *)
Fixpoint lstrip (s : str) : str :=
  match s with
  | [] => []
  | c :: rest => if isspace c then lstrip rest else s
  end.

Definition strip (s : str) : str := rev (lstrip (rev (lstrip s))).

(** The text the mock takes for the chunk ([test.py], lines 18-20). *)
Definition mock_excerpt (user_message : str) : str :=
  let chunk_start := find (lit "<chunk>") user_message in
  let chunk_end := find (lit "</chunk>") user_message in
  if (-1 <? chunk_start) && (-1 <? chunk_end)
  then strip (slice user_message (chunk_start + 7) chunk_end)
  else [].

(** The two ends of the mock's context string, line 23:
    "[컨텍스트: 이 청크는 '" and "...'로 시작하는 내용에 대한 설명입니다]". *)
Definition MOCK_OPENING : str :=
  [91; 52968; 53581; 49828; 53944; 58; 32; 51060; 32; 52397; 53356; 45716; 32; 39]%N.

Definition MOCK_CLOSING : str :=
  [46; 46; 46; 39; 47196; 32; 49884; 51089; 54616; 45716; 32; 45236; 50857; 50640;
   32; 45824; 54620; 32; 49444; 47749; 51077; 45768; 45796; 93]%N.

Definition mock_context (user_message : str) : str :=
  MOCK_OPENING ++ slice (mock_excerpt user_message) 0 30 ++ MOCK_CLOSING.

(** [MockBedrockRuntime] ([test.py], lines 10-37): the request it parses
    is the JSON text [get_chunk_context] made of its request, so its
    [messages[0]['content']] is the user prompt after [json.dumps] and
    [json.loads]; the body it returns is JSON text again, which
    [get_chunk_context] reads back with [json.loads].  The keys are ASCII
    and come back unchanged. *)
Definition MockBedrockRuntime : client :=
  {| invoke_model := fun _ req =>
       let user_message :=
         json_roundtrip (user_prompt (req_document req) (req_chunk req)) in
       InvokeReturns
         (Ok (JObj [(lit "content",
                     JArr [JObj [(lit "text",
                                  JStr (json_roundtrip (mock_context user_message)))]])])) |}.

(** The chunk [chunk] builds for a window when the runtime is the mock and
    the mock recovers the window's text from the prompt. *)
Definition mock_chunk (window : list str) : str :=
  (MOCK_OPENING ++ slice (join (lit " ") window) 0 30 ++ MOCK_CLOSING)
  ++ [10; 10]%N ++ join (lit " ") window.

(* ================================================================== *)
(** ** Facts about the Python primitives *)
(* ================================================================== *)

Section SliceFacts.

Context {A : Type}.
Implicit Types l : list A.

Lemma len_nonneg l : 0 <= len l.
Proof. unfold len. lia. Qed.

Lemma len_app l1 l2 : len (l1 ++ l2) = len l1 + len l2.
Proof. unfold len. rewrite length_app. lia. Qed.

Lemma clip_inside n i : 0 <= i <= n -> clip n i = i.
Proof.
  intros H. unfold clip.
  destruct (Z.ltb_spec i 0); lia.
Qed.

Lemma slice_inside l a b :
  0 <= a -> a <= b -> b <= len l ->
  slice l a b = firstn (Z.to_nat (b - a)) (skipn (Z.to_nat a) l).
Proof.
  intros Ha Hab Hb. unfold slice.
  rewrite !clip_inside by lia. reflexivity.
Qed.

Lemma len_slice l a b :
  0 <= a -> a <= b -> b <= len l -> len (slice l a b) = b - a.
Proof.
  intros Ha Hab Hb. rewrite slice_inside by assumption.
  unfold len in *. rewrite length_firstn, length_skipn. lia.
Qed.

Lemma slice_prefix l b :
  0 <= b -> b <= len l -> slice l 0 b = firstn (Z.to_nat b) l.
Proof.
  intros H0 Hb. rewrite slice_inside by lia.
  simpl. now rewrite Z.sub_0_r.
Qed.

Lemma slice_all l : slice l 0 (len l) = l.
Proof.
  rewrite slice_prefix by (pose proof (len_nonneg l); lia).
  unfold len. rewrite Nat2Z.id. apply firstn_all.
Qed.

Lemma firstn_plus n m l :
  firstn (n + m) l = firstn n l ++ firstn m (skipn n l).
Proof.
  revert l. induction n as [|n IH]; intros l; [reflexivity|].
  destruct l as [|x l]; simpl.
  - now rewrite firstn_nil.
  - now rewrite IH.
Qed.

(** Two adjacent slices make one. *)
Lemma slice_app l a b c :
  0 <= a -> a <= b -> b <= c -> c <= len l ->
  slice l a c = slice l a b ++ slice l b c.
Proof.
  intros Ha Hab Hbc Hc.
  rewrite !slice_inside by lia.
  replace (Z.to_nat (c - a)) with (Z.to_nat (b - a) + Z.to_nat (c - b))%nat by lia.
  rewrite firstn_plus. f_equal.
  rewrite skipn_skipn.
  replace (Z.to_nat (b - a) + Z.to_nat a)%nat with (Z.to_nat b) by lia.
  reflexivity.
Qed.

Lemma In_firstn n l x : In x (firstn n l) -> In x l.
Proof.
  intros H. rewrite <- (firstn_skipn n l). apply in_or_app. now left.
Qed.

Lemma In_skipn n l x : In x (skipn n l) -> In x l.
Proof.
  intros H. rewrite <- (firstn_skipn n l). apply in_or_app. now right.
Qed.

Lemma slice_In l a b x : In x (slice l a b) -> In x l.
Proof.
  unfold slice. intros H.
  apply In_firstn in H. now apply In_skipn in H.
Qed.

Lemma lastn_app l1 l2 : lastn (List.length l2) (l1 ++ l2) = l2.
Proof.
  unfold lastn. rewrite length_app.
  replace (List.length l1 + List.length l2 - List.length l2)%nat
    with (List.length l1 + 0)%nat by lia.
  rewrite skipn_app, Nat.add_0_r, skipn_all.
  replace (List.length l1 - List.length l1)%nat with 0%nat by lia.
  reflexivity.
Qed.

Lemma firstn_app_exact l1 l2 : firstn (List.length l1) (l1 ++ l2) = l1.
Proof.
  rewrite firstn_app, firstn_all.
  replace (List.length l1 - List.length l1)%nat with 0%nat by lia.
  simpl. apply app_nil_r.
Qed.

End SliceFacts.

Section RangeFacts.

Lemma range_items_length n start step :
  List.length (range_items n start step) = n.
Proof.
  revert start. induction n as [|n IH]; intros start; simpl; [reflexivity|].
  now rewrite IH.
Qed.

Lemma range_items_snoc n start step :
  range_items (S n) start step
  = range_items n start step ++ [start + Z.of_nat n * step].
Proof.
  revert start. induction n as [|n IH]; intros start.
  - simpl. f_equal. lia.
  - change (range_items (S (S n)) start step)
      with (start :: range_items (S n) (start + step) step).
    rewrite IH. cbn [range_items app]. f_equal. f_equal. f_equal. lia.
Qed.

Lemma range_items_nth n start step k :
  nth_error (range_items n start step) k
  = if (k <? n)%nat then Some (start + Z.of_nat k * step) else None.
Proof.
  revert start k. induction n as [|n IH]; intros start k.
  - destruct k; reflexivity.
  - destruct k as [|k].
    + simpl. f_equal. lia.
    + simpl nth_error. rewrite IH.
      change (S k <? S n)%nat with (k <? n)%nat.
      destruct (k <? n)%nat; [f_equal; lia | reflexivity].
Qed.

Lemma range_items_In n start step i :
  In i (range_items n start step) <->
  exists k, (k < n)%nat /\ i = start + Z.of_nat k * step.
Proof.
  split.
  - intros H. apply In_nth_error in H. destruct H as [k Hk].
    rewrite range_items_nth in Hk.
    destruct (Nat.ltb_spec k n); [|discriminate].
    exists k. split; [assumption|]. congruence.
  - intros [k [Hk ->]].
    apply nth_error_In with (n := k).
    rewrite range_items_nth.
    destruct (Nat.ltb_spec k n); [reflexivity | lia].
Qed.

(** For a positive step, [range(0, stop, step)] has the least number of
    items whose next offset reaches [stop]. *)
Lemma range_len_up stop step :
  0 < step -> 0 <= stop ->
  let n := range_len 0 stop step in
  0 <= n /\ n <= stop /\ (n - 1) * step < stop /\ stop <= n * step.
Proof.
  intros Hstep Hstop. unfold range_len.
  destruct (Z.ltb_spec 0 step); [|lia].
  destruct (Z.ltb_spec 0 stop).
  - replace (stop - 0 - 1) with (stop - 1) by lia.
    pose proof (Z.div_pos (stop - 1) step ltac:(lia) Hstep) as Hq.
    pose proof (Z.mul_div_le (stop - 1) step Hstep) as Hlo.
    pose proof (Z.mul_succ_div_gt (stop - 1) step Hstep) as Hhi.
    cbv zeta. repeat split; nia.
  - cbv zeta. assert (stop = 0) by lia. subst. repeat split; lia.
Qed.

Lemma range_ok start stop step :
  step <> 0 ->
  range start stop step
  = Ok (range_items (Z.to_nat (range_len start stop step)) start step).
Proof.
  intros H. unfold range.
  destruct (Z.eqb_spec step 0); [contradiction | reflexivity].
Qed.

Lemma range_down_empty stop step :
  step < 0 -> 0 <= stop -> range 0 stop step = Ok [].
Proof.
  intros Hs Hstop. rewrite range_ok by lia. unfold range_len.
  destruct (Z.ltb_spec 0 step); [lia|].
  destruct (Z.ltb_spec stop 0); [lia|]. reflexivity.
Qed.

End RangeFacts.

Section SplitJoinFacts.

Lemma flush_word cur : cur <> [] -> flush cur = [cur].
Proof. destruct cur; [contradiction | reflexivity]. Qed.

(** Scanning over characters that are no separators only grows the word
    under the cursor. *)
Lemma split_from_run cur x rest :
  Forall (fun c => isspace c = false) x ->
  split_from cur (x ++ rest) = split_from (cur ++ x) rest.
Proof.
  intros Hx. revert cur.
  induction Hx as [|c x Hc _ IH]; intros cur.
  - now rewrite app_nil_r.
  - cbn [app split_from]. rewrite Hc, IH, <- app_assoc. reflexivity.
Qed.

Lemma split_from_words cur s :
  Forall (fun c => isspace c = false) cur ->
  Forall is_word (split_from cur s).
Proof.
  revert cur. induction s as [|c s IH]; intros cur Hcur.
  - simpl. destruct cur; simpl; constructor; [|constructor].
    split; [discriminate | assumption].
  - cbn [split_from]. destruct (isspace c) eqn:Hc.
    + apply Forall_app. split; [|apply IH; constructor].
      destruct cur; simpl; constructor; [|constructor].
      split; [discriminate | assumption].
    + apply IH. apply Forall_app. split; [assumption|].
      constructor; [assumption | constructor].
Qed.

(** [text.split()] returns words. *)
Lemma split_words s : Forall is_word (split s).
Proof. apply split_from_words. constructor. Qed.

(** Joining words with one space and splitting again gives the words
    back. *)
Lemma split_join xs :
  Forall is_word xs -> split (join (lit " ") xs) = xs.
Proof.
  induction 1 as [|x xs [Hne Hx] Hxs IH]; [reflexivity|].
  unfold split in *. cbn [join].
  destruct xs as [|y ys].
  - rewrite <- (app_nil_r x) at 1.
    rewrite split_from_run by assumption.
    simpl. now apply flush_word.
  - rewrite split_from_run by assumption.
    change (lit " " ++ join (lit " ") (y :: ys))
      with (32%N :: join (lit " ") (y :: ys)).
    cbn [split_from app].
    change (isspace 32) with true. cbn iota.
    rewrite flush_word by assumption.
    now rewrite IH.
Qed.

Lemma slice_words (xs : list str) a b :
  Forall is_word xs -> Forall is_word (slice xs a b).
Proof.
  intros H. rewrite Forall_forall in *.
  intros x Hx. apply H. eapply slice_In. eassumption.
Qed.

End SplitJoinFacts.

(* ================================================================== *)
(** ** The parent split *)
(* ================================================================== *)

Section ParentSplit.

Variable cfg : config.
Hypothesis parent_size_pos : 0 < PARENT_CHUNK_SIZE cfg.

(** The words of a parent window are the slice it was joined from. *)
Lemma parent_window_words words i :
  Forall is_word words ->
  split (parent_chunk_at cfg words i)
  = slice words i (Z.min (i + PARENT_CHUNK_SIZE cfg) (len words)).
Proof.
  intros H. unfold parent_chunk_at.
  apply split_join. now apply slice_words.
Qed.

(** The first [m] parent slices make up the first [m * PARENT_CHUNK_SIZE]
    words. *)
Lemma parent_slices_prefix (words : list str) m :
  (Z.of_nat m - 1) * PARENT_CHUNK_SIZE cfg < len words ->
  List.concat (map (fun i => slice words i (Z.min (i + PARENT_CHUNK_SIZE cfg) (len words)))
              (range_items m 0 (PARENT_CHUNK_SIZE cfg)))
  = firstn (Z.to_nat (Z.min (Z.of_nat m * PARENT_CHUNK_SIZE cfg) (len words))) words.
Proof.
  pose proof (len_nonneg words) as HW.
  induction m as [|m IH]; intros Hm.
  - simpl. rewrite Z.min_l by lia. reflexivity.
  - rewrite range_items_snoc, map_app, concat_app. cbn [map List.concat].
    rewrite app_nil_r, IH by lia.
    assert (Hlt : Z.of_nat m * PARENT_CHUNK_SIZE cfg < len words) by lia.
    rewrite (Z.min_l (Z.of_nat m * PARENT_CHUNK_SIZE cfg)) by lia.
    rewrite <- !slice_prefix by lia.
    rewrite Z.add_0_l.
    replace (Z.of_nat (S m) * PARENT_CHUNK_SIZE cfg)
      with (Z.of_nat m * PARENT_CHUNK_SIZE cfg + PARENT_CHUNK_SIZE cfg) by lia.
    symmetry. apply slice_app; lia.
Qed.

Lemma split_parent_ok text :
  split_parent cfg text
  = Ok (map (parent_chunk_at cfg (split text))
            (range_items (Z.to_nat (range_len 0 (len (split text)) (PARENT_CHUNK_SIZE cfg)))
                         0 (PARENT_CHUNK_SIZE cfg))).
Proof.
  unfold split_parent. rewrite range_ok by lia. reflexivity.
Qed.

End ParentSplit.

(** C4.  For every document text and a positive [PARENT_CHUNK_SIZE], the
    parent split succeeds, the word sequences of its parent windows
    concatenate, in order, to the whitespace-tokenized words of the
    document, every window but the last holds exactly [PARENT_CHUNK_SIZE]
    words, the last holds between 1 and [PARENT_CHUNK_SIZE] words, and a
    document without words yields no parent window. *)
Theorem parent_split_lossless_partition (cfg : config) (text : str) :
  0 < PARENT_CHUNK_SIZE cfg ->
  exists parents,
    split_parent cfg text = Ok parents
    /\ List.concat (map split parents) = split text
    /\ (forall k p, nth_error parents k = Some p ->
          if (S k <? List.length parents)%nat
          then len (split p) = PARENT_CHUNK_SIZE cfg
          else 1 <= len (split p) <= PARENT_CHUNK_SIZE cfg)
    /\ (split text = [] -> parents = []).
Proof.
  intros HP.
  set (words := split text).
  pose proof (split_words text) as Hwords. fold words in Hwords.
  pose proof (len_nonneg words) as HW.
  destruct (range_len_up (len words) (PARENT_CHUNK_SIZE cfg) HP HW)
    as (Hn0 & HnW & Hlo & Hhi).
  set (n := range_len 0 (len words) (PARENT_CHUNK_SIZE cfg)) in *.
  eexists. split; [apply split_parent_ok; assumption|]. fold words n.
  split; [|split].
  - rewrite map_map.
    rewrite (map_ext _ _ (fun i => parent_window_words cfg words i Hwords)).
    rewrite parent_slices_prefix by lia.
    rewrite Z2Nat.id, Z.min_r by lia.
    unfold len. rewrite Nat2Z.id. apply firstn_all.
  - intros k p Hk. rewrite length_map, range_items_length.
    rewrite nth_error_map, range_items_nth in Hk.
    destruct (Nat.ltb_spec k (Z.to_nat n)) as [Hkn|]; [|discriminate].
    cbn [option_map] in Hk. injection Hk as <-.
    rewrite parent_window_words by assumption.
    assert (Hk' : Z.of_nat k * PARENT_CHUNK_SIZE cfg < len words) by nia.
    rewrite len_slice by nia.
    destruct (Nat.ltb_spec (S k) (Z.to_nat n)).
    + rewrite Z.min_l by nia. lia.
    + lia.
  - intros Hnil. unfold words in *. rewrite Hnil in *.
    assert (n = 0) by (unfold len in HnW; simpl in HnW; lia).
    replace n with 0 by lia. reflexivity.
Qed.

(** At the constants of [test.py], the document "w1 ... w230" splits into
    the windows w1..w100, w101..w200 and w201..w230. *)
Lemma parent_split_lossless_partition_witness :
  0 < PARENT_CHUNK_SIZE test_config
  /\ exists parents,
       split_parent test_config (doc 230) = Ok parents
       /\ List.concat (map split parents) = split (doc 230)
       /\ (forall k p, nth_error parents k = Some p ->
             if (S k <? List.length parents)%nat
             then len (split p) = PARENT_CHUNK_SIZE test_config
             else 1 <= len (split p) <= PARENT_CHUNK_SIZE test_config)
       /\ (split (doc 230) = [] -> parents = []).
Proof.
  split; [reflexivity|].
  apply (parent_split_lossless_partition test_config (doc 230)). reflexivity.
Defined.

(* ================================================================== *)
(** ** The child split *)
(* ================================================================== *)

Section ChildSplit.

Variable cfg : config.
Variable parent_words : list str.

Abbreviation C := (CHILD_CHUNK_SIZE cfg).
Abbreviation O := (CHUNK_OVERLAP cfg).
Abbreviation W := (len parent_words).
Abbreviation stride := (CHILD_CHUNK_SIZE cfg - CHUNK_OVERLAP cfg).
Abbreviation offsets := (range_items (Z.to_nat (range_len 0 W stride)) 0 stride).

Lemma split_child_ok :
  stride <> 0 ->
  split_child cfg parent_words = Ok (flat_map (emit cfg parent_words) offsets).
Proof.
  intros H. unfold split_child. rewrite range_ok by assumption. reflexivity.
Qed.

(** Every offset the loop visits is a multiple of the stride below [W]. *)
Lemma offsets_spec i :
  0 < stride ->
  In i offsets ->
  exists k : nat,
    i = Z.of_nat k * stride /\ 0 <= i < W
    /\ (Z.of_nat k < range_len 0 W stride).
Proof.
  intros Hs Hi.
  destruct (range_len_up W stride Hs (len_nonneg _)) as (Hn0 & HnW & Hlo & Hhi).
  apply range_items_In in Hi. destruct Hi as (k & Hk & ->).
  exists k. repeat split; nia.
Qed.

Lemma emit_kept i :
  skipped cfg W i = false -> emit cfg parent_words i = [child_words cfg parent_words i].
Proof. intros H. unfold emit. now rewrite H. Qed.

Lemma emit_skipped i :
  skipped cfg W i = true -> emit cfg parent_words i = [].
Proof. intros H. unfold emit. now rewrite H. Qed.

Lemma skipped_spec i :
  skipped cfg W i = true <->
  (Z.min (i + C) W - (i - O) < C / 2 /\ 0 < i).
Proof.
  unfold skipped, start_idx, end_idx.
  destruct (Z.ltb_spec 0 i).
  - rewrite andb_true_r. rewrite Z.ltb_lt. tauto.
  - rewrite andb_false_r. split; [discriminate | lia].
Qed.

Lemma first_offset_kept : skipped cfg W 0 = false.
Proof. unfold skipped. now rewrite andb_false_r. Qed.

(** The measured length only shrinks as the offset grows: a skip is
    followed by skips. *)
Lemma skipped_mono i j :
  i <= j -> skipped cfg W i = true -> skipped cfg W j = true.
Proof.
  rewrite !skipped_spec. lia.
Qed.

Lemma nothing_after_skip n i :
  0 < stride -> skipped cfg W i = true ->
  flat_map (emit cfg parent_words) (range_items n i stride) = [].
Proof.
  intros Hs. revert i. induction n as [|n IH]; intros i Hi; [reflexivity|].
  cbn [range_items flat_map].
  rewrite emit_skipped by assumption.
  apply IH. apply (skipped_mono i); [lia | assumption].
Qed.

(** Skipping and stopping emit the same windows. *)
Lemma skip_is_stop n i :
  0 < stride ->
  flat_map (emit cfg parent_words) (range_items n i stride)
  = emit_until_skip cfg parent_words (range_items n i stride).
Proof.
  intros Hs. revert i. induction n as [|n IH]; intros i; [reflexivity|].
  cbn [range_items flat_map emit_until_skip].
  destruct (skipped cfg W i) eqn:Hi.
  - rewrite emit_skipped by assumption.
    apply nothing_after_skip; [assumption|].
    apply (skipped_mono i); [lia | assumption].
  - rewrite emit_kept by assumption. cbn [app]. now rewrite IH.
Qed.

(** The emitted windows sit at the first [m] offsets, for some [m]. *)
Lemma emitted_prefix n i :
  exists m : nat,
    (m <= n)%nat
    /\ emit_until_skip cfg parent_words (range_items n i stride)
       = map (child_words cfg parent_words) (range_items m i stride).
Proof.
  revert i. induction n as [|n IH]; intros i.
  - exists 0%nat. split; [lia | reflexivity].
  - cbn [range_items emit_until_skip].
    destruct (skipped cfg W i).
    + exists 0%nat. split; [lia | reflexivity].
    + destruct (IH (i + stride)) as (m & Hm & Heq).
      exists (S m). split; [lia|].
      cbn [range_items map]. now rewrite Heq.
Qed.

(** The [k]-th emitted window is the one at offset [k * stride], and
    that offset is one the loop visits. *)
Lemma emitted_nth windows k x :
  0 < stride ->
  split_child cfg parent_words = Ok windows ->
  nth_error windows k = Some x ->
  x = child_words cfg parent_words (Z.of_nat k * stride)
  /\ Z.of_nat k * stride < W.
Proof.
  intros Hs Hsplit Hk.
  rewrite split_child_ok in Hsplit by lia. injection Hsplit as <-.
  rewrite skip_is_stop in Hk by assumption.
  destruct (emitted_prefix (Z.to_nat (range_len 0 W stride)) 0) as (m & Hm & Heq).
  rewrite Heq, nth_error_map, range_items_nth in Hk.
  destruct (Nat.ltb_spec k m); [|discriminate].
  cbn [option_map] in Hk. injection Hk as <-.
  split; [f_equal; lia|].
  destruct (range_len_up W stride Hs (len_nonneg _)) as (Hn0 & HnW & Hlo & Hhi).
  nia.
Qed.

End ChildSplit.

(* ================================================================== *)
(** ** Worked runs *)
(* ================================================================== *)

Lemma str_eqb_eq a b : str_eqb a b = true <-> a = b.
Proof.
  unfold str_eqb. destruct (list_eq_dec N.eq_dec a b); split; congruence.
Qed.

Lemma not_In_by_eqb (x : str) (l : list str) :
  existsb (str_eqb x) l = false -> ~ In x l.
Proof.
  intros H Hin.
  assert (existsb (str_eqb x) l = true) as Ht.
  { apply existsb_exists. exists x. split; [assumption | now apply str_eqb_eq]. }
  congruence.
Qed.

(** C2 as stated fails: the third window does not end at w120, and the
    words w121..w130 are not left out, each of them is in the third
    window. *)
Lemma example_130_claimed_windows_refuted :
  split_child test_config (ws 1 130) <> Ok [ws 1 50; ws 31 90; ws 71 120]
  /\ forall k, (121 <= k <= 130)%nat ->
     ~ (forall windows, split_child test_config (ws 1 130) = Ok windows ->
        ~ In (w k) (List.concat windows)).
Proof.
  split.
  - vm_compute. discriminate.
  - intros k Hk Hnone.
    apply (Hnone [ws 1 50; ws 31 90; ws 71 130]); [vm_compute; reflexivity|].
    change (List.concat [ws 1 50; ws 31 90; ws 71 130])
      with ((ws 1 50 ++ ws 31 90 ++ ws 71 120) ++ map w (seq 121 10)).
    apply in_or_app. right. apply in_map. apply in_seq. lia.
Qed.

(** C2, amended.  For the parent words w1..w130 with the constants of
    [test.py] (child size 50, overlap 10) the loop visits the offsets 0,
    40, 80 and 120 and emits exactly three windows: w1..w50, w31..w90 and
    w71..w130.  The candidate at offset 120 (w111..w130, 20 words, fewer
    than 25) is skipped, and every word of w121..w130 is in the third
    window. *)
Theorem example_130_windows :
  split_child test_config (ws 1 130) = Ok [ws 1 50; ws 31 90; ws 71 130]
  /\ range 0 (len (ws 1 130)) (CHILD_CHUNK_SIZE test_config - CHUNK_OVERLAP test_config)
     = Ok [0; 40; 80; 120]
  /\ skipped test_config (len (ws 1 130)) 120 = true
  /\ child_words test_config (ws 1 130) 120 = ws 111 130
  /\ len (ws 111 130) = 20
  /\ CHILD_CHUNK_SIZE test_config / 2 = 25
  /\ Forall (fun x => In x (ws 71 130)) (ws 121 130).
Proof.
  repeat split; try (vm_compute; reflexivity).
  rewrite Forall_forall. intros x Hx.
  change (ws 71 130) with (ws 71 120 ++ ws 121 130).
  apply in_or_app. now right.
Qed.

(** C1 at a failing input.  With the constants of [test.py] a document of
    92 words is one parent window; its child windows are w1..w50 and
    w31..w90, the candidate at offset 80 (22 words) is skipped, [chunk]
    returns two enriched chunks, and the words w91 and w92 are in no child
    window.  With the deployed constants a full parent window of 1024
    words loses its words from w995 on in the same way. *)
Theorem coverage_gap_after_skipped_tail :
  (split_parent test_config (doc 92) = Ok [doc 92]
   /\ split (doc 92) = ws 1 92
   /\ split_child test_config (ws 1 92) = Ok [ws 1 50; ws 31 90]
   /\ skipped test_config (len (ws 1 92)) 80 = true
   /\ chunk (fun _ => [])
            {| source := Harness; constants := test_config;
               bedrock_runtime := echo_client |} (doc 92) 0%nat
      = (Ok [contextualized (fun _ => []) (JStr (lit "ctx")) (join (lit " ") (ws 1 50));
             contextualized (fun _ => []) (JStr (lit "ctx")) (join (lit " ") (ws 31 90))],
         2%nat)
   /\ ~ In (w 91) (List.concat [ws 1 50; ws 31 90])
   /\ ~ In (w 92) (List.concat [ws 1 50; ws 31 90]))
  /\
  (split_child lambda_config (ws 1 1024) = Ok [ws 1 512; ws 453 994]
   /\ ~ In (w 995) (List.concat [ws 1 512; ws 453 994])
   /\ ~ In (w 1024) (List.concat [ws 1 512; ws 453 994])).
Proof.
  repeat split;
    try (vm_compute; reflexivity);
    apply not_In_by_eqb; vm_compute; reflexivity.
Qed.

(* ================================================================== *)
(** ** Overlap of consecutive windows *)
(* ================================================================== *)

(** C3 as stated fails.  With the constants of [test.py] and the parent
    words w1..w130, the first two windows are w1..w50 and w31..w90, both at
    least 10 words long: the last 10 words of the first are w41..w50, the
    first 10 words of the second are w31..w40. *)
Lemma overlap_words_claim_refuted :
  ~ (forall windows k w1 w2,
       split_child test_config (ws 1 130) = Ok windows ->
       nth_error windows k = Some w1 ->
       nth_error windows (S k) = Some w2 ->
       CHUNK_OVERLAP test_config <= len w1 ->
       CHUNK_OVERLAP test_config <= len w2 ->
       lastn (Z.to_nat (CHUNK_OVERLAP test_config)) w1
       = firstn (Z.to_nat (CHUNK_OVERLAP test_config)) w2).
Proof.
  intros H.
  specialize (H [ws 1 50; ws 31 90; ws 71 130] 0%nat (ws 1 50) (ws 31 90)).
  assert (lastn 10 (ws 1 50) = firstn 10 (ws 31 90)) as Heq.
  { apply H; vm_compute; try reflexivity; discriminate. }
  vm_compute in Heq. discriminate Heq.
Qed.

(** C3, amended.  For parameters with [0 <= overlap], [2 * overlap <=
    child_size] and [overlap < child_size], two consecutively emitted child
    windows, the earlier at offset [i], share the words of the index range
    from [i + child_size - 2 * overlap] to [min (i + child_size) W]: the
    last [n] words of the earlier window are the first [n] words of the
    later one, where [n] is [2 * overlap] when the earlier window is not
    cut by the end of the parent ([i + child_size <= W]) and lies between
    [overlap] and [2 * overlap] otherwise. *)
Theorem consecutive_windows_share_double_overlap
  (cfg : config) (parent_words : list str) (windows : list (list str))
  (k : nat) (w1 w2 : list str) :
  0 <= CHUNK_OVERLAP cfg ->
  2 * CHUNK_OVERLAP cfg <= CHILD_CHUNK_SIZE cfg ->
  CHUNK_OVERLAP cfg < CHILD_CHUNK_SIZE cfg ->
  split_child cfg parent_words = Ok windows ->
  nth_error windows k = Some w1 ->
  nth_error windows (S k) = Some w2 ->
  let i := Z.of_nat k * (CHILD_CHUNK_SIZE cfg - CHUNK_OVERLAP cfg) in
  let n := Z.min (2 * CHUNK_OVERLAP cfg)
                 (len parent_words - i - CHILD_CHUNK_SIZE cfg + 2 * CHUNK_OVERLAP cfg) in
  lastn (Z.to_nat n) w1 = firstn (Z.to_nat n) w2
  /\ CHUNK_OVERLAP cfg <= n <= 2 * CHUNK_OVERLAP cfg
  /\ (i + CHILD_CHUNK_SIZE cfg <= len parent_words -> n = 2 * CHUNK_OVERLAP cfg)
  /\ n <= len w1 /\ n <= len w2.
Proof.
  intros HO H2O HOC Hsplit Hk1 Hk2 i n.
  pose proof (len_nonneg parent_words) as HW.
  destruct (emitted_nth cfg parent_words windows k w1 ltac:(lia) Hsplit Hk1) as [-> Hi].
  destruct (emitted_nth cfg parent_words windows (S k) w2 ltac:(lia) Hsplit Hk2) as [-> Hj].
  fold i in Hi |- *.
  replace (Z.of_nat (S k) * (CHILD_CHUNK_SIZE cfg - CHUNK_OVERLAP cfg))
    with (i + (CHILD_CHUNK_SIZE cfg - CHUNK_OVERLAP cfg)) in * by lia.
  assert (Hi0 : 0 <= i) by (unfold i; nia).
  assert (Hi1 : i = 0 \/ CHILD_CHUNK_SIZE cfg - CHUNK_OVERLAP cfg <= i).
  { unfold i. destruct k; [left; lia | right; nia]. }
  set (s1 := start_idx cfg i).
  set (e1 := end_idx cfg (len parent_words) i).
  set (s2 := start_idx cfg (i + (CHILD_CHUNK_SIZE cfg - CHUNK_OVERLAP cfg))).
  set (e2 := end_idx cfg (len parent_words) (i + (CHILD_CHUNK_SIZE cfg - CHUNK_OVERLAP cfg))).
  assert (Hs1 : 0 <= s1 <= s2).
  { unfold s1, s2, start_idx.
    destruct (Z.ltb_spec 0 i);
      destruct (Z.ltb_spec 0 (i + (CHILD_CHUNK_SIZE cfg - CHUNK_OVERLAP cfg))); lia. }
  assert (Hs2 : s2 = i + CHILD_CHUNK_SIZE cfg - 2 * CHUNK_OVERLAP cfg).
  { unfold s2, start_idx.
    destruct (Z.ltb_spec 0 (i + (CHILD_CHUNK_SIZE cfg - CHUNK_OVERLAP cfg))); lia. }
  assert (He1 : e1 = Z.min (i + CHILD_CHUNK_SIZE cfg) (len parent_words)) by reflexivity.
  assert (He2 : e1 <= e2 <= len parent_words) by (unfold e1, e2, end_idx; lia).
  assert (Hn : n = e1 - s2) by (unfold n; lia).
  assert (Hmid : s2 <= e1) by lia.
  unfold child_words. fold s1 e1 s2 e2.
  rewrite (slice_app parent_words s1 s2 e1) by lia.
  rewrite (slice_app parent_words s2 e1 e2) by lia.
  assert (Hlen : Z.to_nat n = List.length (slice parent_words s2 e1)).
  { pose proof (len_slice parent_words s2 e1 ltac:(lia) ltac:(lia) ltac:(lia)) as Hl.
    unfold len in Hl. lia. }
  rewrite !len_app, !len_slice by lia.
  split; [|lia].
  rewrite Hlen, lastn_app, firstn_app_exact. reflexivity.
Qed.

(** The first two windows of the 130-word run share w31..w50. *)
Lemma consecutive_windows_share_double_overlap_witness :
  lastn 20 (ws 1 50) = firstn 20 (ws 31 90)
  /\ 10 <= 20 <= 20 /\ (0 + 50 <= 130 -> 20 = 20)
  /\ 20 <= len (ws 1 50) /\ 20 <= len (ws 31 90).
Proof.
  exact (consecutive_windows_share_double_overlap
           test_config (ws 1 130) [ws 1 50; ws 31 90; ws 71 130] 0 (ws 1 50) (ws 31 90)
           ltac:(vm_compute; discriminate) ltac:(vm_compute; discriminate)
           ltac:(reflexivity) ltac:(vm_compute; reflexivity)
           ltac:(reflexivity) ltac:(reflexivity)).
Defined.

(* ================================================================== *)
(** ** Short parent windows and short child windows *)
(* ================================================================== *)

Section WindowSizes.

Variable cfg : config.
Variable parent_words : list str.

Abbreviation C' := (CHILD_CHUNK_SIZE cfg).
Abbreviation O' := (CHUNK_OVERLAP cfg).
Abbreviation W' := (len parent_words).
Abbreviation stride' := (CHILD_CHUNK_SIZE cfg - CHUNK_OVERLAP cfg).

Lemma flat_map_all_skipped (offs : list Z) :
  (forall i, In i offs -> skipped cfg W' i = true) ->
  flat_map (emit cfg parent_words) offs = [].
Proof.
  induction offs as [|i offs IH]; intros H; [reflexivity|].
  cbn [flat_map]. rewrite emit_skipped by (apply H; now left).
  apply IH. intros j Hj. apply H. now right.
Qed.

Lemma first_window : child_words cfg parent_words 0 = slice parent_words 0 (Z.min C' W').
Proof. reflexivity. Qed.

(** A non-empty parent window no longer than the child size comes out as
    one window when every later candidate falls under the guard. *)
Lemma single_window :
  O' < C' -> 1 <= W' <= C' -> O' <= 0 \/ 2 * O' < C' / 2 ->
  split_child cfg parent_words = Ok [parent_words].
Proof.
  intros HOC HW Hsmall.
  rewrite split_child_ok by lia.
  destruct (range_len_up W' stride' ltac:(lia) (len_nonneg _)) as (Hn0 & HnW & Hlo & Hhi).
  destruct (Z.to_nat (range_len 0 W' stride')) as [|n] eqn:Hn; [nia|].
  cbn [range_items flat_map].
  rewrite emit_kept by apply first_offset_kept.
  rewrite first_window, Z.min_r, slice_all by lia.
  rewrite flat_map_all_skipped; [reflexivity|].
  intros i Hi. apply range_items_In in Hi. destruct Hi as (k & Hk & ->).
  apply skipped_spec. split; nia.
Qed.

(** A non-empty parent window no longer than the child size comes out as
    one window exactly when there is no second offset, or the candidate at
    the second offset falls under the guard. *)
Lemma single_window_iff :
  O' < C' -> 1 <= W' <= C' ->
  (split_child cfg parent_words = Ok [parent_words]
   <-> (W' <= C' - O' \/ W' + 2 * O' - C' < C' / 2)).
Proof.
  intros HOC HW.
  rewrite split_child_ok by lia.
  destruct (range_len_up W' stride' ltac:(lia) (len_nonneg _)) as (Hn0 & HnW & Hlo & Hhi).
  destruct (Z.to_nat (range_len 0 W' stride')) as [|n] eqn:Hn; [nia|].
  cbn [range_items flat_map].
  rewrite emit_kept by apply first_offset_kept.
  rewrite first_window, Z.min_r, slice_all by lia.
  split.
  - intros Hone.
    destruct (Z.le_gt_cases W' (C' - O')) as [|Hsecond]; [now left|right].
    destruct n as [|n]; [nia|].
    cbn [range_items flat_map] in Hone.
    destruct (skipped cfg W' (0 + stride')) eqn:Hsk.
    + apply skipped_spec in Hsk. lia.
    + rewrite emit_kept in Hone by assumption. discriminate.
  - intros Hcond.
    rewrite flat_map_all_skipped; [reflexivity|].
    intros i Hi. apply range_items_In in Hi. destruct Hi as (k & Hk & ->).
    apply skipped_spec. split; nia.
Qed.

(** With [0 <= overlap] and [2 * overlap <= child_size] every emitted
    window holds at least half a child size of words, or stands alone. *)
Lemma window_not_small windows x :
  0 <= O' -> 2 * O' <= C' -> O' < C' ->
  split_child cfg parent_words = Ok windows ->
  In x windows ->
  C' / 2 <= len x \/ windows = [x].
Proof.
  intros HO H2O HOC Hsplit Hx.
  pose proof (len_nonneg parent_words) as HW.
  assert (Hhalf : C' / 2 <= stride').
  { pose proof (Z.mul_div_le C' 2 ltac:(lia)). lia. }
  assert (Hhalf0 : 0 <= C' / 2) by (apply Z.div_pos; lia).
  rewrite split_child_ok in Hsplit by lia. injection Hsplit as <-.
  apply in_flat_map in Hx. destruct Hx as (i & Hi & Hx).
  destruct (skipped cfg W' i) eqn:Hsk.
  { rewrite emit_skipped in Hx by assumption. contradiction. }
  rewrite emit_kept in Hx by assumption.
  destruct Hx as [<-|[]].
  destruct (range_len_up W' stride' ltac:(lia) HW) as (Hn0 & HnW & Hlo & Hhi).
  pose proof Hi as Hi'.
  apply range_items_In in Hi'. destruct Hi' as (k & Hk & Hik).
  destruct k as [|k].
  - (* the window at offset 0 *)
    assert (Hi0 : i = 0) by lia. clear Hik. subst i.
    rewrite first_window, len_slice by lia.
    destruct (Z.le_gt_cases (C' / 2) (Z.min C' W' - 0)) as [|Hshort]; [now left|right].
    assert (Hone : Z.to_nat (range_len 0 W' stride') = 1%nat) by nia.
    rewrite Hone. cbn [range_items flat_map].
    rewrite emit_kept by apply first_offset_kept.
    rewrite first_window. reflexivity.
  - (* a later window passed the guard *)
    left.
    assert (Hpos : 0 < i) by nia.
    assert (Hlt : i < W') by nia.
    assert (Hge : stride' <= i) by nia.
    assert (Hnot : ~ (Z.min (i + C') W' - (i - O') < C' / 2 /\ 0 < i)).
    { rewrite <- skipped_spec. congruence. }
    unfold child_words, start_idx, end_idx.
    destruct (Z.ltb_spec 0 i); [|lia].
    rewrite len_slice by lia. lia.
Qed.

End WindowSizes.

Lemma shipped_cases (cfg : config) :
  In cfg shipped_configs -> cfg = lambda_config \/ cfg = test_config.
Proof.
  intros [<-|[<-|[]]]; [now left | now right].
Qed.

(** The parent windows of a document are never empty. *)
Lemma parent_window_nonempty (cfg : config) (text : str) (parents : list str) (p : str) :
  0 < PARENT_CHUNK_SIZE cfg ->
  split_parent cfg text = Ok parents ->
  In p parents ->
  1 <= len (split p) <= PARENT_CHUNK_SIZE cfg.
Proof.
  intros HP Hsplit Hp.
  rewrite split_parent_ok in Hsplit by assumption. injection Hsplit as <-.
  apply in_map_iff in Hp. destruct Hp as (i & <- & Hi).
  apply range_items_In in Hi. destruct Hi as (k & Hk & ->).
  pose proof (len_nonneg (split text)) as HW.
  destruct (range_len_up (len (split text)) (PARENT_CHUNK_SIZE cfg) HP HW)
    as (Hn0 & HnW & Hlo & Hhi).
  rewrite parent_window_words by apply split_words.
  assert (0 + Z.of_nat k * PARENT_CHUNK_SIZE cfg < len (split text)) by nia.
  rewrite len_slice by nia. lia.
Qed.

(** C5 as stated fails.  With child size 50 and overlap 20 a parent
    window of fifty words, which is no longer than the child size, comes
    out as two windows: w1..w50 and then, at offset 30, w11..w50. *)
Lemma short_parent_two_children_at_quarter_overlap :
  CHUNK_OVERLAP quarter_overlap_config < CHILD_CHUNK_SIZE quarter_overlap_config
  /\ len (ws 1 50) <= CHILD_CHUNK_SIZE quarter_overlap_config
  /\ split_child quarter_overlap_config (ws 1 50) = Ok [ws 1 50; ws 11 50].
Proof. repeat split; vm_compute; (reflexivity || discriminate). Qed.

(** C5, amended.  With [overlap < child_size], a non-empty parent window
    of [W <= child_size] words is split into exactly one child window,
    holding all its words, exactly when no second offset exists
    ([W <= child_size - overlap]) or the candidate at the second offset
    falls under the guard ([W + 2 * overlap - child_size < child_size // 2]).
    That is so for every such [W] when [overlap <= 0] or
    [2 * overlap < child_size // 2], hence for both shipped sets of
    constants. *)
Theorem short_parent_is_one_child (cfg : config) (parent_words : list str) :
  CHUNK_OVERLAP cfg < CHILD_CHUNK_SIZE cfg ->
  1 <= len parent_words <= CHILD_CHUNK_SIZE cfg ->
  (split_child cfg parent_words = Ok [parent_words]
   <-> (len parent_words <= CHILD_CHUNK_SIZE cfg - CHUNK_OVERLAP cfg
        \/ len parent_words + 2 * CHUNK_OVERLAP cfg - CHILD_CHUNK_SIZE cfg
           < CHILD_CHUNK_SIZE cfg / 2))
  /\ (CHUNK_OVERLAP cfg <= 0 \/ 2 * CHUNK_OVERLAP cfg < CHILD_CHUNK_SIZE cfg / 2 ->
      split_child cfg parent_words = Ok [parent_words])
  /\ (In cfg shipped_configs -> split_child cfg parent_words = Ok [parent_words]).
Proof.
  intros HOC HW. split; [|split].
  - now apply single_window_iff.
  - intros Hsmall. now apply single_window.
  - intros Hcfg. apply single_window; [assumption | assumption |].
    destruct (shipped_cases cfg Hcfg) as [-> | ->]; right; reflexivity.
Qed.

(** A 45-word parent window under the constants of [test.py]: one child
    window holding all 45 words. *)
Lemma short_parent_is_one_child_witness :
  (split_child test_config (ws 1 45) = Ok [ws 1 45]
   <-> (len (ws 1 45) <= CHILD_CHUNK_SIZE test_config - CHUNK_OVERLAP test_config
        \/ len (ws 1 45) + 2 * CHUNK_OVERLAP test_config - CHILD_CHUNK_SIZE test_config
           < CHILD_CHUNK_SIZE test_config / 2))
  /\ (CHUNK_OVERLAP test_config <= 0
      \/ 2 * CHUNK_OVERLAP test_config < CHILD_CHUNK_SIZE test_config / 2 ->
      split_child test_config (ws 1 45) = Ok [ws 1 45])
  /\ (In test_config shipped_configs -> split_child test_config (ws 1 45) = Ok [ws 1 45]).
Proof.
  apply (short_parent_is_one_child test_config (ws 1 45)).
  - reflexivity.
  - vm_compute. split; discriminate.
Defined.

(** C6.  For both shipped sets of constants and every parent window, an
    emitted child window holds at least [CHILD_CHUNK_SIZE // 2] words
    unless it is the only child window of its parent window. *)
Theorem child_window_at_least_half
  (cfg : config) (parent_words : list str) (windows : list (list str)) (x : list str) :
  In cfg shipped_configs ->
  split_child cfg parent_words = Ok windows ->
  In x windows ->
  CHILD_CHUNK_SIZE cfg / 2 <= len x \/ windows = [x].
Proof.
  intros Hcfg Hsplit Hx.
  apply (window_not_small cfg parent_words windows x); try assumption;
    destruct (shipped_cases cfg Hcfg) as [-> | ->];
    vm_compute; first [reflexivity | discriminate].
Qed.

(** The second window of the 92-word run holds 60 words. *)
Lemma child_window_at_least_half_witness :
  CHILD_CHUNK_SIZE test_config / 2 <= len (ws 31 90)
  \/ [ws 1 50; ws 31 90] = [ws 31 90].
Proof.
  apply (child_window_at_least_half test_config (ws 1 92) [ws 1 50; ws 31 90] (ws 31 90)).
  - right. left. reflexivity.
  - vm_compute. reflexivity.
  - right. left. reflexivity.
Defined.

(* ================================================================== *)
(** ** Skipping against stopping *)
(* ================================================================== *)

Section SkipOrStop.

Variable cfg : config.
Variable parent_words : list str.

(** When no start index is negative, the candidate of the specification
    is the window of the code and its word count is the length the guard
    measures. *)
Lemma spec_advance_agrees (offs : list Z) :
  0 <= CHUNK_OVERLAP cfg ->
  2 * CHUNK_OVERLAP cfg <= CHILD_CHUNK_SIZE cfg ->
  CHUNK_OVERLAP cfg < CHILD_CHUNK_SIZE cfg ->
  (forall i, In i offs ->
     (i = 0 \/ CHILD_CHUNK_SIZE cfg - CHUNK_OVERLAP cfg <= i) /\ i < len parent_words) ->
  spec_advance (CHILD_CHUNK_SIZE cfg) (CHUNK_OVERLAP cfg) parent_words offs
  = emit_until_skip cfg parent_words offs.
Proof.
  intros HO H2O HOC.
  induction offs as [|i offs IH]; intros Hoffs; [reflexivity|].
  cbn [spec_advance emit_until_skip].
  destruct (Hoffs i (or_introl eq_refl)) as [Hi HiW].
  rewrite IH by (intros j Hj; apply Hoffs; now right).
  destruct (Z.eqb_spec i 0) as [-> | Hne].
  - rewrite first_offset_kept. reflexivity.
  - assert (Hpos : 0 < i) by lia.
    unfold skipped, child_words, start_idx, end_idx.
    destruct (Z.ltb_spec 0 i); [|lia].
    rewrite andb_true_r, len_slice by lia.
    reflexivity.
Qed.

End SkipOrStop.

(** C7 as stated fails.  With child size 50 and overlap 30 (an overlap
    below the child size) and the parent words w1..w100, the code emits
    five windows, the second of them empty, where the walk of the
    specification stops after the first. *)
Lemma stop_walk_differs_for_wide_overlap :
  CHUNK_OVERLAP wide_overlap_config < CHILD_CHUNK_SIZE wide_overlap_config
  /\ split_child wide_overlap_config (ws 1 100)
     = Ok [ws 1 50; []; ws 11 90; ws 31 100; ws 51 100]
  /\ spec_split_child (CHILD_CHUNK_SIZE wide_overlap_config)
                      (CHUNK_OVERLAP wide_overlap_config) (ws 1 100)
     = Ok [ws 1 50]
  /\ split_child wide_overlap_config (ws 1 100)
     <> spec_split_child (CHILD_CHUNK_SIZE wide_overlap_config)
                         (CHUNK_OVERLAP wide_overlap_config) (ws 1 100).
Proof.
  repeat split; try (vm_compute; reflexivity).
  vm_compute. discriminate.
Qed.

(** C7, amended.  For every parent window and parameters with
    [overlap < child_size]: once the guard of the code skips the candidate
    at an offset [i > 0], every later offset is skipped too, so the loop
    emits what the same loop with a stop in place of the skip emits; and
    when moreover [0 <= overlap] and [2 * overlap <= child_size] (no
    negative start index), it emits exactly the windows of the
    specification's discard-and-stop walk. *)
Theorem skip_and_continue_is_discard_and_stop (cfg : config) (parent_words : list str) :
  CHUNK_OVERLAP cfg < CHILD_CHUNK_SIZE cfg ->
  (forall offs i j,
     range 0 (len parent_words) (CHILD_CHUNK_SIZE cfg - CHUNK_OVERLAP cfg) = Ok offs ->
     In i offs -> In j offs -> 0 < i -> i < j ->
     skipped cfg (len parent_words) i = true ->
     emit cfg parent_words j = [])
  /\ (exists offs,
        range 0 (len parent_words) (CHILD_CHUNK_SIZE cfg - CHUNK_OVERLAP cfg) = Ok offs
        /\ split_child cfg parent_words = Ok (emit_until_skip cfg parent_words offs))
  /\ (0 <= CHUNK_OVERLAP cfg ->
      2 * CHUNK_OVERLAP cfg <= CHILD_CHUNK_SIZE cfg ->
      split_child cfg parent_words
      = spec_split_child (CHILD_CHUNK_SIZE cfg) (CHUNK_OVERLAP cfg) parent_words).
Proof.
  intros HOC.
  assert (Hs : 0 < CHILD_CHUNK_SIZE cfg - CHUNK_OVERLAP cfg) by lia.
  split; [|split].
  - intros offs i j _ _ _ Hi Hij Hskip.
    apply emit_skipped. apply (skipped_mono cfg parent_words i); [lia | assumption].
  - eexists. split; [apply range_ok; lia|].
    rewrite split_child_ok by lia. f_equal. now apply skip_is_stop.
  - intros HO H2O.
    unfold spec_split_child. rewrite range_ok by lia. cbn [rbind].
    rewrite split_child_ok by lia. f_equal.
    rewrite skip_is_stop by assumption.
    symmetry. apply spec_advance_agrees; try assumption.
    intros i Hi.
    destruct (range_len_up (len parent_words) _ Hs (len_nonneg _)) as (Hn0 & HnW & Hlo & Hhi).
    apply range_items_In in Hi. destruct Hi as (k & Hk & ->).
    split; [destruct k; [left; lia | right; nia] | nia].
Qed.

(** The 130-word run under the constants of [test.py]. *)
Lemma skip_and_continue_is_discard_and_stop_witness :
  split_child test_config (ws 1 130)
  = spec_split_child (CHILD_CHUNK_SIZE test_config) (CHUNK_OVERLAP test_config) (ws 1 130).
Proof.
  apply (skip_and_continue_is_discard_and_stop test_config (ws 1 130)).
  - reflexivity.
  - vm_compute. discriminate.
  - vm_compute. discriminate.
Defined.

(* ================================================================== *)
(** ** Termination of the inner loop *)
(* ================================================================== *)

Section LoopRun.

Variable cfg : config.
Variable parent_words : list str.

Lemma loop_step_advances s s' :
  loop_step cfg parent_words s = Some s' ->
  offset s < len parent_words
  /\ offset s' = offset s + (CHILD_CHUNK_SIZE cfg - CHUNK_OVERLAP cfg)
  /\ emitted s' = emitted s ++ emit cfg parent_words (offset s).
Proof.
  unfold loop_step.
  destruct (Z.ltb_spec (offset s) (len parent_words)) as [Hlt|Hge]; [|discriminate].
  intros Hstep. injection Hstep as <-. cbn. auto.
Qed.

(** Run from offset [i]: [n] iterations and one failed test end the loop,
    whatever fuel is left. *)
Lemma loop_run_offsets n :
  forall i acc fuel,
    0 < CHILD_CHUNK_SIZE cfg - CHUNK_OVERLAP cfg ->
    (n < fuel)%nat ->
    (0 < Z.of_nat n ->
       i + (Z.of_nat n - 1) * (CHILD_CHUNK_SIZE cfg - CHUNK_OVERLAP cfg) < len parent_words) ->
    len parent_words <= i + Z.of_nat n * (CHILD_CHUNK_SIZE cfg - CHUNK_OVERLAP cfg) ->
    loop_run cfg parent_words fuel {| offset := i; emitted := acc |}
    = Some (acc ++ flat_map (emit cfg parent_words)
                     (range_items n i (CHILD_CHUNK_SIZE cfg - CHUNK_OVERLAP cfg))).
Proof.
  induction n as [|n IH]; intros i acc fuel Hs Hfuel Hlo Hhi;
    (destruct fuel as [|fuel]; [lia|]); cbn [loop_run].
  - unfold loop_step. cbn [offset emitted].
    destruct (Z.ltb_spec i (len parent_words)); [lia|].
    cbn [range_items flat_map]. now rewrite app_nil_r.
  - unfold loop_step. cbn [offset emitted].
    destruct (Z.ltb_spec i (len parent_words)); [|nia].
    rewrite IH by (try assumption; nia).
    cbn [range_items flat_map]. now rewrite app_assoc.
Qed.

End LoopRun.

(** C8.  With [overlap < child_size] the inner loop ends for every parent
    window: [range] is built without error and holds [n <= W] offsets, the
    multiples of the stride below [W]; each iteration moves the offset up
    by the positive stride; the first offset past them is at or beyond
    [W]; and the loop run step by step stops after those [n] iterations
    with the windows of [split_child], whatever fuel remains. *)
Theorem child_loop_terminates (cfg : config) (parent_words : list str) :
  CHUNK_OVERLAP cfg < CHILD_CHUNK_SIZE cfg ->
  exists n : nat,
    Z.of_nat n <= len parent_words
    /\ range 0 (len parent_words) (CHILD_CHUNK_SIZE cfg - CHUNK_OVERLAP cfg)
       = Ok (range_items n 0 (CHILD_CHUNK_SIZE cfg - CHUNK_OVERLAP cfg))
    /\ (forall k, (k < n)%nat ->
          Z.of_nat k * (CHILD_CHUNK_SIZE cfg - CHUNK_OVERLAP cfg) < len parent_words)
    /\ len parent_words <= Z.of_nat n * (CHILD_CHUNK_SIZE cfg - CHUNK_OVERLAP cfg)
    /\ (forall s s', loop_step cfg parent_words s = Some s' ->
          offset s < len parent_words /\ offset s < offset s')
    /\ (forall fuel, (n < fuel)%nat ->
          exists windows,
            loop_run cfg parent_words fuel loop_init = Some windows
            /\ split_child cfg parent_words = Ok windows).
Proof.
  intros HOC.
  assert (Hs : 0 < CHILD_CHUNK_SIZE cfg - CHUNK_OVERLAP cfg) by lia.
  destruct (range_len_up (len parent_words) _ Hs (len_nonneg _)) as (Hn0 & HnW & Hlo & Hhi).
  exists (Z.to_nat (range_len 0 (len parent_words) (CHILD_CHUNK_SIZE cfg - CHUNK_OVERLAP cfg))).
  split; [lia|]. split; [apply range_ok; lia|].
  split.
  { intros k Hk.
    assert (Z.of_nat k <= range_len 0 (len parent_words)
                            (CHILD_CHUNK_SIZE cfg - CHUNK_OVERLAP cfg) - 1) by lia.
    nia. }
  split; [rewrite Z2Nat.id by lia; lia|]. split.
  - intros s s' Hstep. apply loop_step_advances in Hstep. lia.
  - intros fuel Hfuel. eexists. split.
    + unfold loop_init.
      rewrite (loop_run_offsets cfg parent_words
                 (Z.to_nat (range_len 0 (len parent_words)
                                      (CHILD_CHUNK_SIZE cfg - CHUNK_OVERLAP cfg))))
        by (try assumption; rewrite ?Z2Nat.id by lia; lia).
      cbn [app]. reflexivity.
    + apply split_child_ok. lia.
Qed.

(** The 130-word run under the constants of [test.py] ends after four
    iterations. *)
Lemma child_loop_terminates_witness :
  exists n : nat,
    Z.of_nat n <= len (ws 1 130)
    /\ range 0 (len (ws 1 130)) (CHILD_CHUNK_SIZE test_config - CHUNK_OVERLAP test_config)
       = Ok (range_items n 0 (CHILD_CHUNK_SIZE test_config - CHUNK_OVERLAP test_config))
    /\ (forall k, (k < n)%nat ->
          Z.of_nat k * (CHILD_CHUNK_SIZE test_config - CHUNK_OVERLAP test_config)
          < len (ws 1 130))
    /\ len (ws 1 130)
       <= Z.of_nat n * (CHILD_CHUNK_SIZE test_config - CHUNK_OVERLAP test_config)
    /\ (forall s s', loop_step test_config (ws 1 130) s = Some s' ->
          offset s < len (ws 1 130) /\ offset s < offset s')
    /\ (forall fuel, (n < fuel)%nat ->
          exists windows,
            loop_run test_config (ws 1 130) fuel loop_init = Some windows
            /\ split_child test_config (ws 1 130) = Ok windows).
Proof.
  apply (child_loop_terminates test_config (ws 1 130)). reflexivity.
Defined.

(* ================================================================== *)
(** ** The assembled chunker *)
(* ================================================================== *)

Section Output.

Lemma utf8_encodable_app a b :
  utf8_encodable (a ++ b) = utf8_encodable a && utf8_encodable b.
Proof. apply forallb_app. Qed.

Lemma digits_encodable d : utf8_encodable (lit (NilEmpty.string_of_uint d)) = true.
Proof. induction d; cbn; auto. Qed.

Lemma str_of_int_encodable n : utf8_encodable (str_of_int n) = true.
Proof.
  unfold str_of_int. destruct (Z.to_int n) as [d|d]; cbn [NilZero.string_of_int].
  - unfold NilZero.string_of_uint. destruct d; try reflexivity; apply digits_encodable.
  - change (utf8_encodable (45%N :: lit (NilZero.string_of_uint d)) = true).
    unfold NilZero.string_of_uint. destruct d; try reflexivity; apply digits_encodable.
Qed.

Lemma line_parents_encodable n : utf8_encodable (line_parents n) = true.
Proof.
  unfold line_parents. now rewrite !utf8_encodable_app, str_of_int_encodable.
Qed.

Lemma line_parent_encodable p : utf8_encodable (line_parent p) = true.
Proof.
  unfold line_parent. now rewrite !utf8_encodable_app, str_of_int_encodable.
Qed.

Lemma line_child_encodable a b c : utf8_encodable (line_child a b c) = true.
Proof.
  unfold line_child. now rewrite !utf8_encodable_app, !str_of_int_encodable.
Qed.

Lemma print_ok s n : utf8_encodable s = true -> print s n = (Ok tt, n).
Proof. unfold print, lift. now intros ->. Qed.


Lemma bind_ext {A B : Type} (c : M A) (k1 k2 : A -> M B) n :
  (forall a m, k1 a m = k2 a m) -> bind c k1 n = bind c k2 n.
Proof.
  intros H. unfold bind. destruct (c n) as [[a|e] m]; [apply H | reflexivity].
Qed.

(** A line that can be encoded is printed and the run goes on. *)
Lemma harness_print_ok {A : Type} v s (k : unit -> M A) n :
  utf8_encodable s = true -> bind (harness_print v s) k n = k tt n.
Proof.
  intros Hs. unfold bind. destruct v; cbn [harness_print]; [reflexivity|].
  now rewrite print_ok.
Qed.

(** The deployed copy prints nothing. *)
Lemma deployed_print {A : Type} s (k : unit -> M A) n :
  bind (harness_print Deployed s) k n = k tt n.
Proof. reflexivity. Qed.


(** A text that can be encoded is made of parts that can. *)
Lemma utf8_encodable_run pre m post :
  utf8_encodable (pre ++ m ++ post) = true -> utf8_encodable m = true.
Proof.
  rewrite !utf8_encodable_app, !andb_true_iff. tauto.
Qed.

Lemma utf8_encodable_concat (parts : list str) :
  Forall (fun x => utf8_encodable x = true) parts ->
  utf8_encodable (List.concat parts) = true.
Proof.
  induction 1 as [|x parts Hx _ IH]; [reflexivity|].
  cbn [List.concat]. now rewrite utf8_encodable_app, Hx, IH.
Qed.

Lemma utf8_encodable_join (xs : list str) :
  Forall (fun x => utf8_encodable x = true) xs ->
  utf8_encodable (join (lit " ") xs) = true.
Proof.
  induction 1 as [|x xs Hx Hxs IH]; [reflexivity|].
  destruct xs as [|y xs]; [exact Hx|].
  change (join (lit " ") (x :: y :: xs)) with (x ++ lit " " ++ join (lit " ") (y :: xs)).
  now rewrite !utf8_encodable_app, Hx, IH.
Qed.

(** A text without surrogates goes through JSON unchanged. *)
Lemma json_roundtrip_encodable s : utf8_encodable s = true -> json_roundtrip s = s.
Proof.
  induction s as [|c rest IH]; intros H; [reflexivity|].
  cbn [utf8_encodable forallb] in H. apply andb_true_iff in H. destruct H as [Hc Hrest].
  cbn [json_roundtrip]. destruct rest as [|d rest']; [reflexivity|].
  replace ((55296 <=? c) && (c <=? 56319) && (56320 <=? d) && (d <=? 57343))%N
    with false.
  - f_equal. now apply IH.
  - unfold is_surrogate in Hc.
    destruct (N.leb_spec 55296 c), (N.leb_spec c 56319); cbn [andb]; try reflexivity.
    destruct (N.leb_spec c 57343); [discriminate | lia].
Qed.

End Output.

Section ChunkFacts.

Variable py_repr : json -> str.

Lemma call_bedrock_counts rt document chunk_content n :
  snd (call_bedrock rt document chunk_content n) = S n.
Proof.
  unfold call_bedrock. now destruct (invoke_model rt n _).
Qed.

(** The loops with the progress lines, which can always be encoded, taken
    out: what is left of the harness's output is the line that shows the
    chunk. *)
Lemma chunk_unfold self text n :
  chunk py_repr self text n
  = bind (lift (split_parent (constants self) text)) (parent_loop py_repr self 0) n.
Proof.
  unfold chunk, bind at 1 3, lift.
  destruct (split_parent (constants self) text) as [parents|e]; [|reflexivity].
  apply harness_print_ok, line_parents_encodable.
Qed.

Lemma parent_loop_cons self p_idx parent_chunk rest n :
  parent_loop py_repr self p_idx (parent_chunk :: rest) n
  = bind (lift (range 0 (len (split parent_chunk))
                  (CHILD_CHUNK_SIZE (constants self) - CHUNK_OVERLAP (constants self))))
      (fun offs =>
         bind (child_loop py_repr self parent_chunk (split parent_chunk) offs)
           (fun chunks =>
              bind (parent_loop py_repr self (p_idx + 1) rest)
                (fun more => ret (chunks ++ more)))) n.
Proof.
  cbn [parent_loop]. apply harness_print_ok, line_parent_encodable.
Qed.

Lemma child_loop_skip self parent_chunk parent_words i rest n :
  skipped (constants self) (len parent_words) i = true ->
  child_loop py_repr self parent_chunk parent_words (i :: rest) n
  = child_loop py_repr self parent_chunk parent_words rest n.
Proof. intros H. cbn [child_loop]. now rewrite H. Qed.

Lemma child_loop_keep self parent_chunk parent_words i rest n :
  skipped (constants self) (len parent_words) i = false ->
  child_loop py_repr self parent_chunk parent_words (i :: rest) n
  = bind (get_chunk_context py_repr (source self) (bedrock_runtime self) parent_chunk
            (join (lit " ") (child_words (constants self) parent_words i)))
      (fun context_info =>
         bind (harness_print (source self)
                 (lit "contextualized_chunk: "
                  ++ contextualized py_repr context_info
                       (join (lit " ") (child_words (constants self) parent_words i))))
           (fun _ =>
              bind (child_loop py_repr self parent_chunk parent_words rest)
                (fun more =>
                   ret (contextualized py_repr context_info
                          (join (lit " ") (child_words (constants self) parent_words i))
                        :: more)))) n.
Proof.
  intros H. cbn [child_loop]. rewrite H. cbv zeta.
  rewrite harness_print_ok by apply line_child_encodable.
  rewrite harness_print_ok by reflexivity.
  apply bind_ext. intros context_info n1.
  apply bind_ext. intros _ n2.
  apply harness_print_ok. reflexivity.
Qed.

(** In the deployed copy nothing is printed at all. *)
Lemma child_loop_keep_deployed cfg rt parent_chunk parent_words i rest n :
  skipped cfg (len parent_words) i = false ->
  child_loop py_repr {| source := Deployed; constants := cfg; bedrock_runtime := rt |}
    parent_chunk parent_words (i :: rest) n
  = bind (call_bedrock rt parent_chunk (join (lit " ") (child_words cfg parent_words i)))
      (fun context_info =>
         bind (child_loop py_repr
                 {| source := Deployed; constants := cfg; bedrock_runtime := rt |}
                 parent_chunk parent_words rest)
           (fun more =>
              ret (contextualized py_repr context_info
                     (join (lit " ") (child_words cfg parent_words i)) :: more))) n.
Proof.
  intros H. cbn [child_loop constants source bedrock_runtime]. rewrite H. reflexivity.
Qed.

(** The line that shows a chunk can be encoded when the chunk can. *)
Lemma chunk_line_encodable c :
  utf8_encodable (lit "contextualized_chunk: " ++ c) = utf8_encodable c.
Proof. now rewrite utf8_encodable_app. Qed.

Lemma answer_line_encodable a :
  utf8_encodable (lit "Assistant response: " ++ a) = utf8_encodable a.
Proof. now rewrite utf8_encodable_app. Qed.

(** The guarded call, case by case: an answer that can be printed is
    returned; an answer that cannot, and a failure whose text can be
    printed, give the fallback; a failure whose text cannot be printed
    leaves the [except] branch as [UnicodeEncodeError]. *)
Lemma harness_context rt document chunk_content n :
  get_chunk_context py_repr Harness rt document chunk_content n
  = match fst (call_bedrock rt document chunk_content n) with
    | Ok v =>
        (Ok (if utf8_encodable (format_value py_repr v) then v else JStr FALLBACK_CONTEXT),
         S n)
    | Raise e =>
        (if exn_encodable e then Ok (JStr FALLBACK_CONTEXT) else Raise UnicodeEncodeError,
         S n)
    end.
Proof.
  cbn [get_chunk_context]. unfold try_except, bind at 1.
  pose proof (call_bedrock_counts rt document chunk_content n) as Hn.
  destruct (call_bedrock rt document chunk_content n) as [[v|e] n'];
    cbn [fst snd] in *; subst n'.
  - unfold bind, print, lift. rewrite answer_line_encodable.
    destruct (utf8_encodable (format_value py_repr v)); reflexivity.
  - unfold bind, print_error, lift. destruct (exn_encodable e); reflexivity.
Qed.











(** With a negative stride no inner loop has an iteration. *)
Lemma parent_loop_negative_stride self parents :
  CHILD_CHUNK_SIZE (constants self) - CHUNK_OVERLAP (constants self) < 0 ->
  forall p_idx n, parent_loop py_repr self p_idx parents n = (Ok [], n).
Proof.
  intros Hs. induction parents as [|p rest IH]; intros p_idx n; [reflexivity|].
  rewrite parent_loop_cons. unfold bind at 1, lift.
  rewrite range_down_empty by (try assumption; apply len_nonneg).
  unfold bind at 1. cbn [child_loop]. unfold ret at 1.
  unfold bind. rewrite IH. reflexivity.
Qed.

End ChunkFacts.

(** A document with at least one word has a first parent window. *)
Lemma split_parent_first (cfg : config) (text : str) :
  0 < PARENT_CHUNK_SIZE cfg -> split text <> [] ->
  exists p rest, split_parent cfg text = Ok (p :: rest).
Proof.
  intros HP Hne.
  rewrite split_parent_ok by assumption.
  destruct (range_len_up (len (split text)) _ HP (len_nonneg _)) as (Hn0 & HnW & Hlo & Hhi).
  assert (0 < len (split text)).
  { unfold len. destruct (split text); [contradiction | cbn; lia]. }
  destruct (Z.to_nat (range_len 0 (len (split text)) (PARENT_CHUNK_SIZE cfg))) eqn:Hn;
    [nia|].
  cbn [range_items map]. eauto.
Qed.

(** A run of the harness copy against a client that always fails: the
    one chunk of "w1 w2 w3" carries the fallback context. *)
Example harness_fallback_run :
  chunk (fun _ => [])
        {| source := Harness; constants := test_config;
           bedrock_runtime := failing_client |} (doc 3) 0%nat
  = (Ok [FALLBACK_CONTEXT ++ [10; 10]%N ++ doc 3], 1%nat).
Proof. vm_compute. reflexivity. Qed.

(** The same run in the deployed copy stops at the first failure. *)
Example deployed_failure_run :
  chunk (fun _ => [])
        {| source := Deployed; constants := test_config;
           bedrock_runtime := failing_client |} (doc 3) 0%nat
  = (Raise (ClientError (lit "throttled")), 1%nat).
Proof. vm_compute. reflexivity. Qed.

(** With an overlap above the child size no window is produced at all. *)
Example negative_stride_run :
  chunk (fun _ => [])
        {| source := Harness; constants := negative_stride_config;
           bedrock_runtime := echo_client |} (doc 3) 0%nat
  = (Ok [], 0%nat).
Proof. vm_compute. reflexivity. Qed.

(* ================================================================== *)
(** ** Construction and misconfiguration *)
(* ================================================================== *)

(** C9 as stated fails.  A chunker whose overlap equals its child size is
    constructed without any error. *)
Lemma construction_accepts_zero_stride :
  CHILD_CHUNK_SIZE zero_stride_config <= CHUNK_OVERLAP zero_stride_config
  /\ ContextualChunker_init Harness zero_stride_config echo_client failing_client true
     = Ok {| source := Harness; constants := zero_stride_config;
             bedrock_runtime := echo_client |}.
Proof.
  split; [vm_compute; discriminate | reflexivity].
Qed.

(** C9, amended.  The constructor checks nothing: with
    [overlap >= child_size] (and a positive parent size) it still returns a
    chunker.  The misconfiguration shows only in [chunk]: when the overlap
    equals the child size, [range] refuses the zero step with a
    [ValueError] at the first parent window, before any call to the
    service, and a document without words still yields the empty list;
    when the overlap exceeds the child size every inner range is empty and
    [chunk] returns the empty list for every document, without a call. *)
Theorem construction_checks_nothing
  (py_repr : json -> str) (v : variant) (cfg : config)
  (mock boto3_client : client) (use_mock : bool) (text : str) (n : nat) :
  CHILD_CHUNK_SIZE cfg <= CHUNK_OVERLAP cfg ->
  0 < PARENT_CHUNK_SIZE cfg ->
  exists self,
    ContextualChunker_init v cfg mock boto3_client use_mock = Ok self
    /\ constants self = cfg
    /\ (CHUNK_OVERLAP cfg = CHILD_CHUNK_SIZE cfg -> split text <> [] ->
        chunk py_repr self text n = (Raise ValueError, n))
    /\ (CHUNK_OVERLAP cfg = CHILD_CHUNK_SIZE cfg -> split text = [] ->
        chunk py_repr self text n = (Ok [], n))
    /\ (CHILD_CHUNK_SIZE cfg < CHUNK_OVERLAP cfg ->
        chunk py_repr self text n = (Ok [], n)).
Proof.
  intros Hge HP. eexists. split; [reflexivity|]. split; [reflexivity|].
  rewrite chunk_unfold. cbn [constants].
  split; [|split].
  - intros Heq Hne.
    destruct (split_parent_first cfg text HP Hne) as (p & rest & ->).
    unfold bind at 1, lift. rewrite parent_loop_cons. cbn [constants].
    replace (CHILD_CHUNK_SIZE cfg - CHUNK_OVERLAP cfg) with 0 by lia.
    reflexivity.
  - intros Heq Hnil.
    rewrite split_parent_ok by assumption. rewrite Hnil.
    unfold range_len. change (len (@nil str)) with 0.
    destruct (0 <? PARENT_CHUNK_SIZE cfg); reflexivity.
  - intros Hgt.
    rewrite split_parent_ok by assumption.
    unfold bind at 1, lift.
    apply parent_loop_negative_stride. cbn [constants]. lia.
Qed.

(** Overlap equal to the child size, a three-word document: the chunker is
    built, and [chunk] raises [ValueError] with no call made. *)
Lemma construction_checks_nothing_witness :
  exists self,
    ContextualChunker_init Harness zero_stride_config echo_client failing_client true
    = Ok self
    /\ constants self = zero_stride_config
    /\ (CHUNK_OVERLAP zero_stride_config = CHILD_CHUNK_SIZE zero_stride_config ->
        split (doc 3) <> [] ->
        chunk (fun _ => []) self (doc 3) 0%nat = (Raise ValueError, 0%nat))
    /\ (CHUNK_OVERLAP zero_stride_config = CHILD_CHUNK_SIZE zero_stride_config ->
        split (doc 3) = [] ->
        chunk (fun _ => []) self (doc 3) 0%nat = (Ok [], 0%nat))
    /\ (CHILD_CHUNK_SIZE zero_stride_config < CHUNK_OVERLAP zero_stride_config ->
        chunk (fun _ => []) self (doc 3) 0%nat = (Ok [], 0%nat)).
Proof.
  apply (construction_checks_nothing (fun _ => []) Harness zero_stride_config
           echo_client failing_client true (doc 3) 0%nat).
  - vm_compute. discriminate.
  - reflexivity.
Defined.

(* ================================================================== *)
(** ** The flat chunker *)
(* ================================================================== *)

Section FlatChunker.

(** A slice bound past the end is the end. *)
Lemma slice_clip_end {A : Type} (l : list A) a b :
  0 <= a -> 0 <= b -> slice l a b = slice l a (Z.min b (len l)).
Proof.
  intros Ha Hb. unfold slice. f_equal. f_equal. f_equal.
  unfold clip. pose proof (len_nonneg l).
  destruct (Z.ltb_spec b 0); destruct (Z.ltb_spec (Z.min b (len l)) 0); lia.
Qed.

Lemma flat_chunk_at (words : list str) i :
  0 <= i ->
  join (lit " ") (slice words i (i + 100)) = parent_chunk_at flat_config words i.
Proof.
  intros Hi. unfold parent_chunk_at. cbn [PARENT_CHUNK_SIZE flat_config].
  now rewrite (slice_clip_end words i (i + 100)) by lia.
Qed.

Lemma range_items_nonneg n step i :
  0 <= step -> In i (range_items n 0 step) -> 0 <= i.
Proof.
  intros Hs Hi. apply range_items_In in Hi. destruct Hi as (k & _ & ->). nia.
Qed.

Lemma SimpleChunker_chunk_ok text :
  SimpleChunker_chunk text
  = Ok (map (parent_chunk_at flat_config (split text))
            (range_items (Z.to_nat (range_len 0 (len (split text)) 100)) 0 100)).
Proof.
  unfold SimpleChunker_chunk. rewrite range_ok by discriminate. cbn [rbind].
  f_equal. apply map_ext_in. intros i Hi. apply flat_chunk_at.
  eapply range_items_nonneg; [|eassumption]. lia.
Qed.

(** A chunk of one to a hundred words is its own only chunk. *)
Lemma SimpleChunker_chunk_short (xs : list str) :
  Forall is_word xs -> 1 <= len xs <= 100 ->
  SimpleChunker_chunk (join (lit " ") xs) = Ok [join (lit " ") xs].
Proof.
  intros Hxs Hlen. rewrite SimpleChunker_chunk_ok, split_join by assumption.
  destruct (range_len_up (len xs) 100 ltac:(lia) ltac:(lia)) as (Hn0 & HnW & Hlo & Hhi).
  assert (Hone : Z.to_nat (range_len 0 (len xs) 100) = 1%nat) by lia.
  rewrite Hone. cbn [range_items map]. unfold parent_chunk_at.
  cbn [PARENT_CHUNK_SIZE flat_config].
  rewrite Z.min_r, slice_all by lia. reflexivity.
Qed.

End FlatChunker.

Lemma flat_chunker_is_parent_split_at_100_aux (text : str) :
  SimpleChunker_chunk text
  = split_parent flat_config text.
Proof.
  rewrite SimpleChunker_chunk_ok, split_parent_ok by reflexivity.
  reflexivity.
Qed.

(** X1.  [SimpleChunker.chunk] cuts exactly as the parent split of the
    contextual chunker would with a parent size of 100. *)
Theorem flat_chunker_is_parent_split_at_100 (text : str) (child overlap : Z) :
  SimpleChunker_chunk text
  = split_parent {| PARENT_CHUNK_SIZE := 100; CHILD_CHUNK_SIZE := child;
                    CHUNK_OVERLAP := overlap |} text.
Proof.
  rewrite SimpleChunker_chunk_ok, split_parent_ok by reflexivity.
  reflexivity.
Qed.

(** X2.  [SimpleChunker.chunk] never raises; the words of its chunks, put
    end to end, are the words of the text; every chunk but the last holds
    exactly 100 words and the last holds 1 to 100; there is no chunk
    exactly when the text has no word. *)
Theorem flat_chunker_partition (text : str) :
  exists chunks,
    SimpleChunker_chunk text = Ok chunks
    /\ List.concat (map split chunks) = split text
    /\ (forall k c, nth_error chunks k = Some c ->
          if (S k <? List.length chunks)%nat
          then len (split c) = 100
          else 1 <= len (split c) <= 100)
    /\ (chunks = [] <-> split text = []).
Proof.
  assert (HP : 0 < PARENT_CHUNK_SIZE flat_config) by reflexivity.
  set (words := split text).
  pose proof (split_words text) as Hwords. fold words in Hwords.
  pose proof (len_nonneg words) as HW.
  destruct (range_len_up (len words) (PARENT_CHUNK_SIZE flat_config) HP HW)
    as (Hn0 & HnW & Hlo & Hhi).
  eexists. split.
  { rewrite flat_chunker_is_parent_split_at_100_aux. now apply split_parent_ok. }
  fold words.
  set (n := range_len 0 (len words) (PARENT_CHUNK_SIZE flat_config)) in *.
  assert (Hsize : PARENT_CHUNK_SIZE flat_config = 100) by reflexivity.
  split; [|split].
  - rewrite map_map.
    rewrite (map_ext _ _ (fun i => parent_window_words flat_config words i Hwords)).
    rewrite (parent_slices_prefix flat_config HP words (Z.to_nat n)) by lia.
    rewrite Z2Nat.id, Z.min_r by lia.
    unfold len. rewrite Nat2Z.id. apply firstn_all.
  - intros k c Hk. rewrite length_map, range_items_length.
    rewrite nth_error_map, range_items_nth in Hk.
    destruct (Nat.ltb_spec k (Z.to_nat n)) as [Hkn|]; [|discriminate].
    cbn [option_map] in Hk. injection Hk as <-.
    rewrite parent_window_words by assumption.
    rewrite len_slice by lia.
    destruct (Nat.ltb_spec (S k) (Z.to_nat n)); lia.
  - split.
    + intros Hnil. apply (f_equal (@List.length _)) in Hnil.
      rewrite length_map, range_items_length in Hnil. cbn [List.length] in Hnil.
      assert (len words = 0) by lia.
      unfold len in *. destruct words; [reflexivity | cbn in *; lia].
    + intros Hnil. rewrite Hnil in *. cbn [len List.length Z.of_nat] in HnW.
      replace (Z.to_nat n) with 0%nat by lia. reflexivity.
Qed.

(** X3.  Chunking a chunk of [SimpleChunker.chunk] again gives that chunk
    back as the only chunk. *)
Theorem flat_chunker_idempotent (text : str) (chunks : list str) (c : str) :
  SimpleChunker_chunk text = Ok chunks ->
  In c chunks ->
  SimpleChunker_chunk c = Ok [c].
Proof.
  intros Hchunks Hc.
  rewrite (flat_chunker_is_parent_split_at_100_aux text) in Hchunks.
  pose proof (parent_window_nonempty flat_config text chunks c eq_refl Hchunks Hc) as Hlen.
  rewrite split_parent_ok in Hchunks by reflexivity. injection Hchunks as <-.
  apply in_map_iff in Hc. destruct Hc as (i & <- & _).
  unfold parent_chunk_at in *.
  rewrite split_join in Hlen by (apply slice_words, split_words).
  apply SimpleChunker_chunk_short; [apply slice_words, split_words | exact Hlen].
Qed.

(** A witness for X3: the middle chunk of a 230-word text. *)
Lemma flat_chunker_idempotent_witness :
  SimpleChunker_chunk (join (lit " ") (ws 101 200)) = Ok [join (lit " ") (ws 101 200)].
Proof.
  apply (flat_chunker_idempotent (doc 230)
           [join (lit " ") (ws 1 100); join (lit " ") (ws 101 200);
            join (lit " ") (ws 201 230)]).
  - vm_compute. reflexivity.
  - right. left. reflexivity.
Defined.

(* ================================================================== *)
(** ** The child windows under the shipped constants *)
(* ================================================================== *)

Ltac decide_skip :=
  match goal with
  | |- context [skipped ?cfg ?W ?i] =>
      let E := fresh "E" in
      destruct (skipped cfg W i) eqn:E;
      [ apply skipped_spec in E;
        cbn [CHILD_CHUNK_SIZE CHUNK_OVERLAP lambda_config test_config] in E
      | assert (~ (Z.min (i + CHILD_CHUNK_SIZE cfg) W - (i - CHUNK_OVERLAP cfg)
                   < CHILD_CHUNK_SIZE cfg / 2 /\ 0 < i))
          by (rewrite <- skipped_spec; congruence);
        cbn [CHILD_CHUNK_SIZE CHUNK_OVERLAP lambda_config test_config] in * ]
  end.

(** X4.  The child windows of a parent window of [W] words, in closed
    form.  Deployed constants (512/30), [1 <= W <= 1024]: below 708 words
    the only window is [words[0:min(512, W)]]; from 708 words on there
    are two, [words[0:512]] and [words[452:min(994, W)]].  Constants of
    [test.py] (50/10), [1 <= W <= 100]: below 55 words one window
    [words[0:min(50, W)]]; from 55 to 94 words two, [words[0:50]] and
    [words[30:min(90, W)]]; from 95 words on three, [words[0:50]],
    [words[30:90]] and [words[70:W]]. *)
Theorem shipped_child_windows (parent_words : list str) :
  (1 <= len parent_words <= 1024 ->
   split_child lambda_config parent_words
   = Ok (if len parent_words <? 708
         then [slice parent_words 0 (Z.min 512 (len parent_words))]
         else [slice parent_words 0 512;
               slice parent_words 452 (Z.min 994 (len parent_words))]))
  /\
  (1 <= len parent_words <= 100 ->
   split_child test_config parent_words
   = Ok (if len parent_words <? 55
         then [slice parent_words 0 (Z.min 50 (len parent_words))]
         else if len parent_words <? 95
         then [slice parent_words 0 50;
               slice parent_words 30 (Z.min 90 (len parent_words))]
         else [slice parent_words 0 50; slice parent_words 30 90;
               slice parent_words 70 (len parent_words)])).
Proof.
  split; intros HW.
  - rewrite split_child_ok by discriminate.
    destruct (range_len_up (len parent_words) 482 ltac:(lia) ltac:(lia))
      as (Hn0 & HnW & Hlo & Hhi).
    change (CHILD_CHUNK_SIZE lambda_config - CHUNK_OVERLAP lambda_config) with 482.
    set (n := range_len 0 (len parent_words) 482) in *.
    assert (Hn : Z.to_nat n = 1%nat \/ Z.to_nat n = 2%nat \/ Z.to_nat n = 3%nat) by lia.
    change (512 / 2) with 256 in *.
    destruct Hn as [Hn | [Hn | Hn]]; rewrite Hn;
      cbn [range_items flat_map Z.add Pos.add Pos.succ]; unfold emit;
      repeat decide_skip; change (512 / 2) with 256 in *; try lia;
      cbn [app]; unfold child_words, start_idx, end_idx;
      cbn [CHILD_CHUNK_SIZE CHUNK_OVERLAP lambda_config Z.ltb Z.compare Z.add Z.sub
           Z.opp Z.pos_sub Pos.add Pos.succ Pos.compare Pos.compare_cont Pos.pred_double
           Z.succ_double Z.pred_double Z.double];
      destruct (Z.ltb_spec (len parent_words) 708); try lia;
      repeat f_equal; lia.
  - rewrite split_child_ok by discriminate.
    destruct (range_len_up (len parent_words) 40 ltac:(lia) ltac:(lia))
      as (Hn0 & HnW & Hlo & Hhi).
    change (CHILD_CHUNK_SIZE test_config - CHUNK_OVERLAP test_config) with 40.
    set (n := range_len 0 (len parent_words) 40) in *.
    assert (Hn : Z.to_nat n = 1%nat \/ Z.to_nat n = 2%nat \/ Z.to_nat n = 3%nat) by lia.
    destruct Hn as [Hn | [Hn | Hn]]; rewrite Hn;
      cbn [range_items flat_map Z.add Pos.add Pos.succ]; unfold emit;
      repeat decide_skip; change (50 / 2) with 25 in *; try lia;
      cbn [app]; unfold child_words, start_idx, end_idx;
      cbn [CHILD_CHUNK_SIZE CHUNK_OVERLAP test_config Z.ltb Z.compare Z.add Z.sub
           Z.opp Z.pos_sub Pos.add Pos.succ Pos.compare Pos.compare_cont Pos.pred_double
           Z.succ_double Z.pred_double Z.double];
      destruct (Z.ltb_spec (len parent_words) 55); try lia;
      destruct (Z.ltb_spec (len parent_words) 95); try lia;
      repeat f_equal; lia.
Qed.

(** A witness for X4: a parent window of 1000 words under the deployed
    constants, one of 92 words under those of [test.py]. *)
Lemma shipped_child_windows_witness :
  split_child lambda_config (ws 1 1000) = Ok [ws 1 512; ws 453 994]
  /\ split_child test_config (ws 1 92) = Ok [ws 1 50; ws 31 90].
Proof.
  split.
  - rewrite (proj1 (shipped_child_windows (ws 1 1000)))
      by (vm_compute; split; discriminate).
    vm_compute. reflexivity.
  - rewrite (proj2 (shipped_child_windows (ws 1 92)))
      by (vm_compute; split; discriminate).
    vm_compute. reflexivity.
Defined.

(* ================================================================== *)
(** ** Windows as runs of the document *)
(* ================================================================== *)

Section Segments.

Context {A : Type}.

(** A slice is a run of consecutive items, whatever its bounds. *)
Lemma slice_segment (l : list A) lo hi :
  exists pre post, l = pre ++ slice l lo hi ++ post.
Proof.
  unfold slice.
  set (a := Z.to_nat (clip (len l) lo)).
  set (k := Z.to_nat (clip (len l) hi - clip (len l) lo)).
  exists (firstn a l), (skipn k (skipn a l)).
  now rewrite firstn_skipn, firstn_skipn.
Qed.

Lemma segment_trans (l m x : list A) :
  (exists pre post, l = pre ++ m ++ post) ->
  (exists pre post, m = pre ++ x ++ post) ->
  exists pre post, l = pre ++ x ++ post.
Proof.
  intros (p1 & q1 & ->) (p2 & q2 & ->).
  exists (p1 ++ p2), (q2 ++ q1).
  now rewrite <- !app_assoc.
Qed.

End Segments.

Lemma split_parent_inv cfg text parents p :
  split_parent cfg text = Ok parents -> In p parents ->
  exists i, split p = slice (split text) i
                        (Z.min (i + PARENT_CHUNK_SIZE cfg) (len (split text))).
Proof.
  unfold split_parent. intros H Hp.
  destruct (range 0 (len (split text)) (PARENT_CHUNK_SIZE cfg)) as [offs|e];
    [|discriminate].
  cbn [rbind] in H. injection H as <-.
  apply in_map_iff in Hp. destruct Hp as (i & <- & _).
  exists i. unfold parent_chunk_at.
  apply split_join, slice_words, split_words.
Qed.

Lemma split_child_inv cfg parent_words windows x :
  split_child cfg parent_words = Ok windows -> In x windows ->
  exists i, x = child_words cfg parent_words i
            /\ skipped cfg (len parent_words) i = false.
Proof.
  unfold split_child. intros H Hx.
  destruct (range 0 (len parent_words) _) as [offs|e]; [|discriminate].
  cbn [rbind] in H. injection H as <-.
  apply in_flat_map in Hx. destruct Hx as (i & _ & Hx).
  unfold emit in Hx.
  destruct (skipped cfg (len parent_words) i) eqn:E; [contradiction|].
  destruct Hx as [<-|[]]. eauto.
Qed.

Lemma children_of_inv cfg parents windows x :
  children_of cfg parents = Ok windows -> In x windows ->
  exists p cs, In p parents /\ split_child cfg (split p) = Ok cs /\ In x cs.
Proof.
  revert windows. induction parents as [|p rest IH]; intros windows H Hx.
  - injection H as <-. contradiction.
  - cbn [children_of] in H.
    destruct (split_child cfg (split p)) as [cs|e] eqn:Hcs; [|discriminate].
    cbn [rbind] in H.
    destruct (children_of cfg rest) as [more|e]; [|discriminate].
    cbn [rbind] in H. injection H as <-.
    apply in_app_or in Hx. destruct Hx as [Hx|Hx].
    + exists p, cs. split; [now left|]. split; assumption.
    + destruct (IH more eq_refl Hx) as (q & cs' & Hq & Hcs' & Hx').
      exists q, cs'. split; [now right|]. split; assumption.
Qed.

(** X5.  Whatever the constants, every child window of a document is a
    run of consecutive words of the document: windows never reorder, drop
    or repeat words inside themselves and never span two parent
    windows. *)
Theorem child_window_is_run_of_document
  (cfg : config) (text : str) (windows : list (list str)) (x : list str) :
  document_windows cfg text = Ok windows ->
  In x windows ->
  exists p pre post pre' post',
    split_parent cfg text = Ok p
    /\ split text = pre ++ x ++ post
    /\ (exists parent, In parent p /\ split parent = pre' ++ x ++ post').
Proof.
  unfold document_windows. intros H Hx.
  destruct (split_parent cfg text) as [parents|e] eqn:Hparents; [|discriminate].
  cbn [rbind] in H.
  destruct (children_of_inv cfg parents windows x H Hx) as (p & cs & Hp & Hcs & Hxcs).
  destruct (split_child_inv cfg (split p) cs x Hcs Hxcs) as (i & -> & _).
  destruct (split_parent_inv cfg text parents p Hparents Hp) as (j & Hj).
  destruct (slice_segment (split p) (start_idx cfg i) (end_idx cfg (len (split p)) i))
    as (pre' & post' & Hseg).
  assert (Hdoc : exists pre post,
             split text = pre ++ child_words cfg (split p) i ++ post).
  { apply (segment_trans (split text) (split p)).
    - rewrite Hj. apply slice_segment.
    - exists pre', post'. exact Hseg. }
  destruct Hdoc as (pre & post & Hdoc).
  exists parents, pre, post, pre', post'.
  split; [reflexivity|]. split; [exact Hdoc|].
  exists p. split; [assumption | exact Hseg].
Qed.

(** A witness for X5: the second window of the 92-word document. *)
Lemma child_window_is_run_of_document_witness :
  exists p pre post pre' post',
    split_parent test_config (doc 92) = Ok p
    /\ split (doc 92) = pre ++ ws 31 90 ++ post
    /\ (exists parent, In parent p /\ split parent = pre' ++ ws 31 90 ++ post').
Proof.
  apply (child_window_is_run_of_document test_config (doc 92) [ws 1 50; ws 31 90]).
  - vm_compute. reflexivity.
  - right. left. reflexivity.
Defined.

(** X6.  With [0 <= overlap], [2 * overlap <= child_size] and
    [overlap < child_size], a child window holds at most
    [child_size + overlap] words (not [child_size]): its start is pulled
    back by the overlap while its end stays at [i + child_size]. *)
Theorem child_window_at_most_child_plus_overlap
  (cfg : config) (parent_words : list str) (windows : list (list str)) (x : list str) :
  0 <= CHUNK_OVERLAP cfg ->
  2 * CHUNK_OVERLAP cfg <= CHILD_CHUNK_SIZE cfg ->
  CHUNK_OVERLAP cfg < CHILD_CHUNK_SIZE cfg ->
  split_child cfg parent_words = Ok windows ->
  In x windows ->
  len x <= CHILD_CHUNK_SIZE cfg + CHUNK_OVERLAP cfg.
Proof.
  intros HO H2O HOC Hsplit Hx.
  pose proof (len_nonneg parent_words) as HW.
  rewrite split_child_ok in Hsplit by lia. injection Hsplit as <-.
  apply in_flat_map in Hx. destruct Hx as (i & Hi & Hx).
  unfold emit in Hx.
  destruct (skipped cfg (len parent_words) i); [contradiction|].
  destruct Hx as [<-|[]].
  destruct (range_len_up (len parent_words) (CHILD_CHUNK_SIZE cfg - CHUNK_OVERLAP cfg)
              ltac:(lia) HW) as (Hn0 & HnW & Hlo & Hhi).
  apply range_items_In in Hi. destruct Hi as (k & Hk & ->).
  unfold child_words, start_idx, end_idx.
  destruct k as [|k].
  - cbn [Z.of_nat Z.mul Z.add Z.ltb Z.compare].
    rewrite len_slice by lia. lia.
  - assert (0 < 0 + Z.of_nat (S k) * (CHILD_CHUNK_SIZE cfg - CHUNK_OVERLAP cfg)) by nia.
    assert (0 + Z.of_nat (S k) * (CHILD_CHUNK_SIZE cfg - CHUNK_OVERLAP cfg)
            < len parent_words) by nia.
    assert (CHILD_CHUNK_SIZE cfg - CHUNK_OVERLAP cfg
            <= 0 + Z.of_nat (S k) * (CHILD_CHUNK_SIZE cfg - CHUNK_OVERLAP cfg)) by nia.
    destruct (Z.ltb_spec 0 (0 + Z.of_nat (S k) * (CHILD_CHUNK_SIZE cfg - CHUNK_OVERLAP cfg)));
      [|lia].
    rewrite len_slice by lia. lia.
Qed.

(** A witness for X6: the 60-word window w31..w90 reaches the bound. *)
Lemma child_window_at_most_child_plus_overlap_witness :
  len (ws 31 90) <= CHILD_CHUNK_SIZE test_config + CHUNK_OVERLAP test_config.
Proof.
  apply (child_window_at_most_child_plus_overlap
           test_config (ws 1 92) [ws 1 50; ws 31 90] (ws 31 90)).
  - vm_compute. discriminate.
  - vm_compute. discriminate.
  - reflexivity.
  - vm_compute. reflexivity.
  - right. left. reflexivity.
Defined.

(* ================================================================== *)
(** ** Documents without words, and the two copies side by side *)
(* ================================================================== *)

Section ChunkOutcomes.

Variable py_repr : json -> str.

Lemma range_len_empty step : range_len 0 0 step = 0.
Proof. unfold range_len. destruct (0 <? step); reflexivity. Qed.

Lemma split_parent_wordless cfg text :
  PARENT_CHUNK_SIZE cfg <> 0 -> split text = [] -> split_parent cfg text = Ok [].
Proof.
  intros HP Hnil. unfold split_parent. rewrite Hnil, range_ok by assumption.
  change (len (@nil str)) with 0. now rewrite range_len_empty.
Qed.

(** Where the deployed call returns an answer that can be printed, the
    guarded call returns the same. *)
Lemma deployed_context_ok rt document chunk_content n v n' :
  get_chunk_context py_repr Deployed rt document chunk_content n = (Ok v, n') ->
  utf8_encodable (format_value py_repr v) = true ->
  get_chunk_context py_repr Harness rt document chunk_content n = (Ok v, n').
Proof.
  intros Hcall Hv. cbn [get_chunk_context] in Hcall. rewrite harness_context.
  pose proof (call_bedrock_counts rt document chunk_content n) as Hn.
  rewrite Hcall in *. cbn [fst snd] in *. now rewrite Hv, Hn.
Qed.

Lemma child_loop_deployed_ok cfg rt parent_chunk parent_words offs :
  forall n chunks n',
    child_loop py_repr {| source := Deployed; constants := cfg; bedrock_runtime := rt |}
      parent_chunk parent_words offs n = (Ok chunks, n') ->
    Forall (fun c => utf8_encodable c = true) chunks ->
    child_loop py_repr {| source := Harness; constants := cfg; bedrock_runtime := rt |}
      parent_chunk parent_words offs n = (Ok chunks, n').
Proof.
  induction offs as [|i offs IH]; intros n chunks n' H Henc; [exact H|].
  destruct (skipped cfg (len parent_words) i) eqn:Hsk.
  - rewrite child_loop_skip in * by assumption. now apply IH.
  - rewrite child_loop_keep_deployed in H by assumption.
    rewrite child_loop_keep by assumption. cbn [constants source bedrock_runtime].
    unfold bind at 1 in H. unfold bind at 1.
    destruct (call_bedrock rt parent_chunk _ n) as [[v|e] n1] eqn:Hctx; [|discriminate].
    unfold bind at 1 in H.
    destruct (child_loop py_repr {| source := Deployed; constants := cfg;
                                    bedrock_runtime := rt |}
                parent_chunk parent_words offs n1) as [[more|e] n2] eqn:Hrest;
      [|discriminate].
    unfold ret in H. injection H as <- <-.
    apply Forall_cons_iff in Henc. destruct Henc as [Hc Hmore].
    assert (Hv : utf8_encodable (format_value py_repr v) = true).
    { unfold contextualized in Hc. rewrite utf8_encodable_app in Hc.
      now apply andb_true_iff in Hc. }
    rewrite (deployed_context_ok rt parent_chunk _ n v n1 Hctx Hv).
    rewrite harness_print_ok by (now rewrite chunk_line_encodable).
    unfold bind at 1. now rewrite (IH _ _ _ Hrest Hmore).
Qed.

Lemma parent_loop_deployed_ok cfg rt parents :
  forall p_idx n chunks n',
    parent_loop py_repr {| source := Deployed; constants := cfg; bedrock_runtime := rt |}
      p_idx parents n = (Ok chunks, n') ->
    Forall (fun c => utf8_encodable c = true) chunks ->
    parent_loop py_repr {| source := Harness; constants := cfg; bedrock_runtime := rt |}
      p_idx parents n = (Ok chunks, n').
Proof.
  induction parents as [|p rest IH]; intros p_idx n chunks n' H Henc; [exact H|].
  rewrite parent_loop_cons in *. cbn [constants] in *.
  unfold bind at 1, lift in H. unfold bind at 1, lift.
  destruct (range 0 (len (split p)) _) as [offs|e]; [|discriminate].
  unfold bind at 1 in H. unfold bind at 1.
  destruct (child_loop py_repr {| source := Deployed; constants := cfg;
                                  bedrock_runtime := rt |} p (split p) offs n)
    as [[cs|e] n1] eqn:Hcs; [|discriminate].
  unfold bind at 1 in H.
  destruct (parent_loop py_repr {| source := Deployed; constants := cfg;
                                   bedrock_runtime := rt |} (p_idx + 1) rest n1)
    as [[more|e] n2] eqn:Hmore; [|discriminate].
  unfold ret in H. injection H as <- <-.
  apply Forall_app in Henc. destruct Henc as [Hhere Hlater].
  rewrite (child_loop_deployed_ok _ _ _ _ _ _ _ _ Hcs Hhere).
  unfold bind at 1. now rewrite (IH _ _ _ _ Hmore Hlater).
Qed.



End ChunkOutcomes.

(** X7.  For either copy and any non-zero parent size, a document without
    words (empty, or whitespace only) gives the empty list, and the
    service is not called. *)
Theorem chunk_of_wordless_document
  (py_repr : json -> str) (self : ContextualChunker) (text : str) (n : nat) :
  PARENT_CHUNK_SIZE (constants self) <> 0 ->
  split text = [] ->
  chunk py_repr self text n = (Ok [], n).
Proof.
  intros HP Hnil. rewrite chunk_unfold.
  rewrite split_parent_wordless by assumption. reflexivity.
Qed.

(** A witness for X7: a document of blanks, tabs and a line break. *)
Lemma chunk_of_wordless_document_witness :
  chunk (fun _ => [])
        {| source := Deployed; constants := lambda_config;
           bedrock_runtime := failing_client |}
        [32; 9; 10; 32]%N 0%nat
  = (Ok [], 0%nat).
Proof.
  apply chunk_of_wordless_document; [discriminate | reflexivity].
Defined.

(** X8.  With a positive parent size and [overlap < child_size], a
    document has no child window exactly when it has no word. *)
Theorem no_window_iff_no_word (cfg : config) (text : str) (windows : list (list str)) :
  0 < PARENT_CHUNK_SIZE cfg ->
  CHUNK_OVERLAP cfg < CHILD_CHUNK_SIZE cfg ->
  document_windows cfg text = Ok windows ->
  (windows = [] <-> split text = []).
Proof.
  intros HP HOC Hdoc. unfold document_windows in Hdoc. split.
  - intros ->.
    destruct (split text) as [|x xs] eqn:Hwords; [reflexivity|exfalso].
    destruct (split_parent_first cfg text HP ltac:(congruence)) as (p & rest & Hp).
    rewrite Hp in Hdoc. cbn [rbind children_of] in Hdoc.
    pose proof (parent_window_nonempty cfg text (p :: rest) p HP Hp (or_introl eq_refl))
      as Hne.
    rewrite split_child_ok in Hdoc by lia. cbn [rbind] in Hdoc.
    destruct (range_len_up (len (split p)) (CHILD_CHUNK_SIZE cfg - CHUNK_OVERLAP cfg)
                ltac:(lia) (len_nonneg _)) as (Hn0 & HnW & Hlo & Hhi).
    destruct (Z.to_nat (range_len 0 (len (split p))
                          (CHILD_CHUNK_SIZE cfg - CHUNK_OVERLAP cfg))) eqn:Hn; [nia|].
    cbn [range_items flat_map] in Hdoc.
    rewrite emit_kept in Hdoc by apply first_offset_kept.
    destruct (children_of cfg rest); cbn [rbind app] in Hdoc; discriminate.
  - intros Hnil. rewrite split_parent_wordless in Hdoc by (assumption || lia).
    cbn in Hdoc. congruence.
Qed.

(** A witness for X8: the three-word document has a window. *)
Lemma no_window_iff_no_word_witness :
  [ws 1 3] = [] <-> split (doc 3) = [].
Proof.
  apply (no_window_iff_no_word test_config (doc 3) [ws 1 3]).
  - reflexivity.
  - reflexivity.
  - vm_compute. reflexivity.
Defined.

(** X9.  The two copies agree wherever the deployed one returns chunks
    that can be printed: if [chunk] of [contextual_rag_lambda.py] returns a
    list of chunks none of which holds a surrogate, [chunk] of [test.py]
    returns the same list after the same calls, for the same constants and
    client. *)
Theorem harness_agrees_with_deployed
  (py_repr : json -> str) (cfg : config) (rt : client) (text : str)
  (n n' : nat) (chunks : list str) :
  chunk py_repr {| source := Deployed; constants := cfg; bedrock_runtime := rt |} text n
  = (Ok chunks, n') ->
  Forall (fun c => utf8_encodable c = true) chunks ->
  chunk py_repr {| source := Harness; constants := cfg; bedrock_runtime := rt |} text n
  = (Ok chunks, n').
Proof.
  rewrite !chunk_unfold. cbn [constants]. unfold bind, lift.
  destruct (split_parent cfg text) as [parents|e]; [|discriminate].
  apply parent_loop_deployed_ok.
Qed.

(** A witness for X9: three words, a client that answers "ctx". *)
Lemma harness_agrees_with_deployed_witness :
  chunk (fun _ => [])
        {| source := Harness; constants := test_config; bedrock_runtime := echo_client |}
        (doc 3) 0%nat
  = (Ok [lit "ctx" ++ [10; 10]%N ++ doc 3], 1%nat).
Proof.
  apply harness_agrees_with_deployed; vm_compute; [reflexivity|].
  constructor; [reflexivity | constructor].
Defined.

(** Where the answer holds a surrogate the copies part: the deployed one
    returns the answer, the harness one the fallback. *)
Example copies_differ_on_surrogate_answer :
  chunk (fun _ => [])
        {| source := Deployed; constants := test_config;
           bedrock_runtime := surrogate_client |} (doc 3) 0%nat
  = (Ok [[56448%N] ++ [10; 10]%N ++ doc 3], 1%nat)
  /\ chunk (fun _ => [])
           {| source := Harness; constants := test_config;
              bedrock_runtime := surrogate_client |} (doc 3) 0%nat
     = (Ok [FALLBACK_CONTEXT ++ [10; 10]%N ++ doc 3], 1%nat).
Proof. split; vm_compute; reflexivity. Qed.



(* ================================================================== *)
(** ** [process_content] with the flat chunker *)
(* ================================================================== *)

Section ProcessContent.

Variable S : Type.

Lemma SimpleChunker_chunk_total text :
  exists chunks, SimpleChunker_chunk text = Ok chunks.
Proof. rewrite SimpleChunker_chunk_ok. eauto. Qed.

(** Every chunk of the flat chunker holds 1 to 100 words. *)
Lemma flat_chunk_size text chunks c :
  SimpleChunker_chunk text = Ok chunks -> In c chunks -> 1 <= len (split c) <= 100.
Proof.
  rewrite flat_chunker_is_parent_split_at_100_aux. intros H Hc.
  exact (parent_window_nonempty flat_config text chunks c eq_refl H Hc).
Qed.

Lemma records_for_chunkable content records :
  records_for content records -> chunkable content.
Proof.
  intros (fields & body & _ & _ & _ & -> & Hbody & _). now exists fields, body.
Qed.

Lemma dict_get_obj fields k default :
  dict_get (JObj fields) k default
  = Returned (match lookup k fields with Some x => x | None => default end).
Proof. unfold dict_get. now destruct (lookup k fields). Qed.

(** One chunkable item: the loop goes on with its records appended. *)
Lemma process_contents_step content rest acc (s : S) :
  chunkable content ->
  exists records,
    records_for content records
    /\ process_contents (SimpleChunker S) (content :: rest) acc s
       = process_contents (SimpleChunker S) rest (acc ++ records) s.
Proof.
  intros (fields & body & -> & Hbody).
  destruct (SimpleChunker_chunk_total body) as [chunks Hchunks].
  cbn [process_contents]. unfold ebind, pure.
  rewrite !dict_get_obj. unfold getitem_key.
  rewrite Hbody. cbn [of_result chunker_chunk SimpleChunker]. unfold pure.
  rewrite Hchunks. cbn [of_result].
  eexists. split; [|reflexivity].
  exists fields, body, chunks. do 2 eexists.
  rewrite !dict_get_obj.
  split; [reflexivity|]. split; [assumption|]. split; [assumption|].
  split; [reflexivity|]. split; reflexivity.
Qed.

Lemma process_contents_good contents :
  Forall chunkable contents ->
  forall acc (s : S),
  exists groups,
    Forall2 records_for contents groups
    /\ process_contents (SimpleChunker S) contents acc s
       = (Returned (acc ++ List.concat groups), s).
Proof.
  induction 1 as [|content rest Hc _ IH]; intros acc s.
  - exists []. split; [constructor|]. cbn. now rewrite app_nil_r.
  - destruct (process_contents_step content rest acc s Hc) as (records & Hrec & ->).
    destruct (IH (acc ++ records) s) as (groups & Hall & ->).
    exists (records :: groups). split; [now constructor|].
    cbn [List.concat]. now rewrite app_assoc.
Qed.

(** What an item that is not chunkable raises: a dict without
    ['contentBody'] a [KeyError], anything else an [AttributeError]. *)
Definition item_error (content : json) : error :=
  match content with
  | JObj fields =>
      match lookup (lit "contentBody") fields with
      | None => Exn KeyError
      | Some _ => AttributeError
      end
  | _ => AttributeError
  end.

Lemma process_contents_bad content rest acc (s : S) :
  ~ chunkable content ->
  process_contents (SimpleChunker S) (content :: rest) acc s
  = (Raised (item_error content), s).
Proof.
  intros Hbad. cbn [process_contents]. unfold ebind, pure.
  destruct content as [| | | |items|fields]; try reflexivity.
  rewrite !dict_get_obj. unfold getitem_key, item_error.
  destruct (lookup (lit "contentBody") fields) as [words|] eqn:Hbody; [|reflexivity].
  cbn [of_result chunker_chunk SimpleChunker].
  destruct words as [| | |body| |]; try reflexivity.
  exfalso. apply Hbad. now exists fields, body.
Qed.

Lemma chunkable_dec content : chunkable content \/ ~ chunkable content.
Proof.
  assert (Hno : forall c, (forall fields, c <> JObj fields) -> ~ chunkable c).
  { intros c Hc (f & b & H & _). now apply (Hc f). }
  destruct content as [| | | |items|fields];
    try (right; apply Hno; intros f; discriminate).
  destruct (lookup (lit "contentBody") fields) as [words|] eqn:Hbody.
  - destruct words as [|flag|number|body|items|inner];
      try (right; intros (f & text & H & Hb); injection H as <-; congruence).
    left. now exists fields, body.
  - right. intros (f & text & H & Hb). injection H as <-. congruence.
Qed.

(** The loop returns only when every item is chunkable. *)
Lemma process_contents_returns contents :
  forall acc (s s' : S) out,
    process_contents (SimpleChunker S) contents acc s = (Returned out, s') ->
    Forall chunkable contents.
Proof.
  induction contents as [|content rest IH]; intros acc s s' out H; [constructor|].
  destruct (chunkable_dec content) as [Hc|Hc].
  - destruct (process_contents_step content rest acc s Hc) as (records & _ & Heq).
    rewrite Heq in H. constructor; [assumption | eapply IH; eassumption].
  - rewrite process_contents_bad in H by assumption. discriminate.
Qed.

End ProcessContent.

(** X11.  With the flat chunker [process_content] returns exactly when the
    file is a dict, its ['fileContents'] (default: empty list) can be
    iterated, and every item is a dict with a string ['contentBody'].
    Whenever the file is of that shape it leaves the state alone and
    returns [{'fileContents': records}], the records being, item after
    item, one per chunk of the item's body, each with the item's
    ['contentType'] and ['contentMetadata']. *)
Theorem process_content_returns_iff (S : Type) (file_content : json) (s : S) :
  ((exists out s', process_content file_content (SimpleChunker S) s = (Returned out, s'))
   <->
   (exists file_contents contents,
       dict_get file_content (lit "fileContents") (JArr []) = Returned file_contents
       /\ iterate file_contents = Returned contents
       /\ Forall chunkable contents))
  /\ (forall file_contents contents,
        dict_get file_content (lit "fileContents") (JArr []) = Returned file_contents ->
        iterate file_contents = Returned contents ->
        Forall chunkable contents ->
        exists groups,
          Forall2 records_for contents groups
          /\ process_content file_content (SimpleChunker S) s
             = (Returned (JObj [(lit "fileContents", JArr (List.concat groups))]), s)).
Proof.
  assert (Hgood : forall file_contents contents,
             dict_get file_content (lit "fileContents") (JArr []) = Returned file_contents ->
             iterate file_contents = Returned contents ->
             Forall chunkable contents ->
             exists groups,
               Forall2 records_for contents groups
               /\ process_content file_content (SimpleChunker S) s
                  = (Returned (JObj [(lit "fileContents", JArr (List.concat groups))]), s)).
  { intros file_contents contents Hget Hiter Hall.
    destruct (process_contents_good S contents Hall [] s) as (groups & Hgroups & Hrun).
    exists groups. split; [assumption|].
    unfold process_content, ebind, pure. now rewrite Hget, Hiter, Hrun. }
  split; [split|exact Hgood].
  - intros (out & s' & H). unfold process_content, ebind, pure in H.
    destruct (dict_get file_content (lit "fileContents") (JArr []))
      as [file_contents|e] eqn:Hget; [|discriminate].
    destruct (iterate file_contents) as [contents|e] eqn:Hiter; [|discriminate].
    destruct (process_contents (SimpleChunker S) contents [] s) as [[records|e] s1]
      eqn:Hloop; [|discriminate].
    exists file_contents, contents.
    split; [reflexivity|]. split; [assumption|].
    exact (process_contents_returns S contents [] s s1 records Hloop).
  - intros (file_contents & contents & Hget & Hiter & Hall).
    destruct (Hgood file_contents contents Hget Hiter Hall) as (groups & _ & Hrun).
    eauto.
Qed.

(** X12.  With the flat chunker, the first item of ['fileContents'] that
    is a dict without ['contentBody'] (the items before it being well
    formed) makes [process_content] raise [KeyError]: the default of
    [content.get('contentBody', '')] is never used. *)
Theorem process_content_missing_body
  (S : Type) (fields : list (str * json)) (good rest : list json)
  (item_fields : list (str * json)) (s : S) :
  lookup (lit "fileContents") fields = Some (JArr (good ++ JObj item_fields :: rest)) ->
  Forall chunkable good ->
  lookup (lit "contentBody") item_fields = None ->
  process_content (JObj fields) (SimpleChunker S) s = (Raised (Exn KeyError), s).
Proof.
  intros Hfc Hgood Hmissing.
  unfold process_content, ebind, pure, dict_get. rewrite Hfc. cbn [iterate].
  clear Hfc.
  assert (Hloop : forall acc,
             process_contents (SimpleChunker S) (good ++ JObj item_fields :: rest) acc s
             = (Raised (Exn KeyError), s)).
  { induction Hgood as [|content good' Hc _ IH]; intros acc.
    - cbn [app]. rewrite process_contents_bad.
      + unfold item_error. now rewrite Hmissing.
      + intros (f & b & H & Hb). injection H as <-. congruence.
    - cbn [app].
      destruct (process_contents_step S content (good' ++ JObj item_fields :: rest) acc s Hc)
        as (records & _ & ->).
      apply IH. }
  now rewrite Hloop.
Qed.

(** A witness for X12: the second item lacks its body. *)
Lemma process_content_missing_body_witness :
  process_content
    (JObj [(lit "fileContents",
            JArr [JObj [(lit "contentBody", JStr (doc 3))];
                  JObj [(lit "contentType", JStr (lit "TEXT"))]])])
    (SimpleChunker unit) tt
  = (Raised (Exn KeyError), tt).
Proof.
  apply (process_content_missing_body unit _
           [JObj [(lit "contentBody", JStr (doc 3))]] []
           [(lit "contentType", JStr (lit "TEXT"))]).
  - reflexivity.
  - constructor; [|constructor]. eexists _, (doc 3). split; reflexivity.
  - reflexivity.
Defined.

Lemma records_for_sizes content records :
  records_for content records ->
  Forall (fun r => exists content_type content_metadata body,
            r = content_record content_type content_metadata body
            /\ 1 <= len (split body) <= 100) records.
Proof.
  intros (fields & body & chunks & ty & meta & _ & _ & Hchunks & _ & _ & ->).
  rewrite Forall_forall. intros r Hr.
  apply in_map_iff in Hr. destruct Hr as (c & <- & Hc).
  exists ty, meta, c. split; [reflexivity|].
  eapply flat_chunk_size; eassumption.
Qed.

(** What [process_content] returns with the flat chunker is an object as
    the handler writes it, and the state is left alone. *)
Lemma process_content_written (S : Type) file_content (s s' : S) out :
  process_content file_content (SimpleChunker S) s = (Returned out, s') ->
  written_object out /\ s' = s.
Proof.
  unfold process_content, ebind, pure. intros H.
  destruct (dict_get file_content (lit "fileContents") (JArr []))
    as [file_contents|e]; [|discriminate].
  destruct (iterate file_contents) as [contents|e]; [|discriminate].
  destruct (process_contents (SimpleChunker S) contents [] s) as [[records|e] s1]
    eqn:Hloop; [|discriminate].
  pose proof (process_contents_returns S contents [] s s1 records Hloop) as Hall.
  destruct (process_contents_good S contents Hall [] s) as (groups & Hgroups & Hrun).
  rewrite Hrun in Hloop. injection Hloop as <- <-.
  injection H as <- <-. split; [|reflexivity].
  exists (List.concat groups). split; [reflexivity|].
  clear Hrun Hall. induction Hgroups as [|c g cs gs Hcg _ IH]; [constructor|].
  cbn [List.concat]. apply Forall_app. split; [|exact IH].
  eapply records_for_sizes. eassumption.
Qed.

(** With the flat chunker the state never changes, whatever happens. *)
Lemma process_content_state (S : Type) file_content (s : S) :
  snd (process_content file_content (SimpleChunker S) s) = s.
Proof.
  unfold process_content, ebind, pure.
  destruct (dict_get file_content (lit "fileContents") (JArr []))
    as [file_contents|e]; [|reflexivity].
  destruct (iterate file_contents) as [contents|e]; [|reflexivity].
  assert (Hloop : forall acc, snd (process_contents (SimpleChunker S) contents acc s) = s).
  { induction contents as [|content rest IH]; intros acc; [reflexivity|].
    destruct (chunkable_dec content) as [Hc|Hc].
    - destruct (process_contents_step S content rest acc s Hc) as (records & _ & ->).
      apply IH.
    - now rewrite process_contents_bad. }
  specialize (Hloop []).
  destruct (process_contents (SimpleChunker S) contents [] s) as [[records|e] s1];
    cbn [snd] in *; assumption.
Qed.

(** What [process_content] raises with the flat chunker is never one of
    the handler's own [ValueError]s. *)
Lemma process_content_error (S : Type) file_content (s s' : S) e :
  process_content file_content (SimpleChunker S) s = (Raised e, s') ->
  forall message, e <> ValueErrorWith message.
Proof.
  unfold process_content, ebind, pure. intros H message.
  destruct file_content as [| | | | |fields];
    try (cbn in H; injection H as <- _; discriminate).
  rewrite dict_get_obj in H.
  destruct (iterate _) as [contents|e0] eqn:Hiter.
  - assert (Hloop : forall acc s1 e1,
               process_contents (SimpleChunker S) contents acc s = (Raised e1, s1) ->
               e1 <> ValueErrorWith message).
    { clear. induction contents as [|content rest IH]; intros acc s1 e1 H1;
        [discriminate|].
      destruct (chunkable_dec content) as [Hc|Hc].
      - destruct (process_contents_step S content rest acc s Hc) as (records & _ & Heq).
        rewrite Heq in H1. eapply IH; eassumption.
      - rewrite process_contents_bad in H1 by assumption. injection H1 as <- _.
        unfold item_error. destruct content; try discriminate.
        destruct (lookup _ _); discriminate. }
    destruct (process_contents (SimpleChunker S) contents [] s) as [[records|e1] s1]
      eqn:Hrun; [discriminate|].
    injection H as <- _. eapply Hloop; eassumption.
  - injection H as <- _.
    destruct (match lookup (lit "fileContents") fields with
              | Some x => x | None => JArr [] end); cbn in Hiter;
      try discriminate; injection Hiter as <-; discriminate.
Qed.

(* ================================================================== *)
(** ** The requests of [lambda_handler] *)
(* ================================================================== *)

Section HandlerTrace.

Variable py_repr : json -> str.
Variable s3 : s3_client.
Variable bucket : json.

Lemma paired_app a b :
  paired_trace py_repr bucket a -> paired_trace py_repr bucket b ->
  paired_trace py_repr bucket (a ++ b).
Proof.
  induction 1 as [|key content rest Hk Hw _ IH]; intros Hb; [exact Hb|].
  cbn [app]. constructor; auto.
Qed.

Lemma batch_app a b :
  paired_trace py_repr bucket a -> batch_trace py_repr bucket b ->
  batch_trace py_repr bucket (a ++ b).
Proof.
  intros Ha [sent Hsent | sent key Hk Hsent].
  - apply batch_paired. now apply paired_app.
  - rewrite app_assoc. apply batch_stopped; [assumption | now apply paired_app].
Qed.

Lemma batch_cons key content rest :
  truthy key = true -> written_object content ->
  batch_trace py_repr bucket rest ->
  batch_trace py_repr bucket
    (GetRequest bucket key :: PutRequest bucket (output_key_of py_repr key) content :: rest).
Proof.
  intros Hk Hw Hrest.
  change (batch_trace py_repr bucket
            ([GetRequest bucket key;
              PutRequest bucket (output_key_of py_repr key) content] ++ rest)).
  apply batch_app; [|assumption].
  constructor; [assumption | assumption | constructor].
Qed.

Lemma read_keys_app a b : read_keys (a ++ b) = read_keys a ++ read_keys b.
Proof.
  induction a as [|[bk key | bk key content] a IH]; cbn [app read_keys];
    [reflexivity | now rewrite IH | exact IH].
Qed.

Lemma dict_get_error v k default e :
  dict_get v k default = Raised e -> e = AttributeError.
Proof.
  destruct v; cbn; try (intros H; now injection H as <-).
  destruct (lookup k fields); discriminate.
Qed.

Lemma iterate_error v e : iterate v = Raised e -> e = Exn TypeError.
Proof.
  destruct v; cbn; try discriminate; intros H; now injection H as <-.
Qed.

(** The loop over the batches of one file: it only appends requests, in
    read-then-write pairs; when it returns, every batch was read and
    written and reported under ["Output/" + key]. *)
Lemma process_batches_run batches :
  forall processed sent r sent',
    process_batches py_repr s3 bucket batches processed sent = (r, sent') ->
    exists new,
      sent' = sent ++ new
      /\ batch_trace py_repr bucket new
      /\ (forall out,
            r = Returned out ->
            paired_trace py_repr bucket new
            /\ Forall2 (fun batch key => dict_get batch (lit "key") JNull = Returned key)
                       batches (read_keys new)
            /\ out = processed ++ map (key_record py_repr) (read_keys new))
      /\ (forall message,
            r = Raised (ValueErrorWith message) ->
            message = lit "Missing uri in content batch").
Proof.
  induction batches as [|batch rest IH]; intros processed sent r sent' Hrun.
  - injection Hrun as <- <-. exists []. rewrite !app_nil_r.
    split; [reflexivity|]. split; [apply batch_paired; constructor|]. split.
    + intros out H. injection H as <-.
      split; [constructor|]. cbn [read_keys map].
      split; [constructor | now rewrite ?app_nil_r].
    + discriminate.
  - cbn [process_batches] in Hrun. unfold ebind at 1, pure in Hrun.
    destruct (dict_get batch (lit "key") JNull) as [key|e] eqn:Hkey.
    2:{ injection Hrun as <- <-. exists []. rewrite app_nil_r.
        split; [reflexivity|]. split; [apply batch_paired; constructor|].
        split; [discriminate|]. intros message H. injection H as ->.
        apply dict_get_error in Hkey. discriminate. }
    destruct (truthy key) eqn:Htruthy; cbn [negb] in Hrun.
    2:{ injection Hrun as <- <-. exists []. rewrite app_nil_r.
        split; [reflexivity|]. split; [apply batch_paired; constructor|].
        split; [discriminate|]. intros message H. now injection H as <-. }
    unfold ebind at 1, read_s3_file in Hrun.
    assert (Hread : batch_trace py_repr bucket [GetRequest bucket key]).
    { apply (batch_stopped py_repr bucket [] key Htruthy). constructor. }
    destruct (get_object s3 sent bucket key) as [e|[file_content|e]];
      cbn [of_result] in Hrun.
    1,3: injection Hrun as <- <-; exists [GetRequest bucket key];
         (split; [reflexivity|]); (split; [assumption|]); (split; discriminate).
    unfold ebind at 1 in Hrun.
    pose proof (process_content_state (list s3_request) file_content
                  (sent ++ [GetRequest bucket key])) as Hstate.
    destruct (process_content file_content (SimpleChunker (list s3_request))
                (sent ++ [GetRequest bucket key])) as [[content|e] sent1] eqn:Hpc;
      cbn [snd] in Hstate; subst sent1.
    2:{ injection Hrun as <- <-. exists [GetRequest bucket key].
        split; [reflexivity|]. split; [assumption|].
        split; [discriminate|]. intros message H. injection H as ->.
        exfalso. exact (process_content_error _ _ _ _ _ Hpc message eq_refl). }
    destruct (process_content_written _ _ _ _ _ Hpc) as [Hwritten _].
    unfold ebind at 1, write_to_s3 in Hrun.
    destruct (put_object s3 (sent ++ [GetRequest bucket key]) bucket
                (output_key_of py_repr key) content) as [e|].
    { injection Hrun as <- <-.
      exists [GetRequest bucket key;
              PutRequest bucket (output_key_of py_repr key) content].
      rewrite <- app_assoc.
      split; [reflexivity|].
      split; [apply batch_cons; try assumption; apply batch_paired; constructor|].
      split; discriminate. }
    destruct (IH _ _ _ _ Hrun) as (new & Hsent & Htrace & Hret & Hmsg).
    exists (GetRequest bucket key
              :: PutRequest bucket (output_key_of py_repr key) content :: new).
    split; [|split; [|split]].
    + rewrite Hsent, <- !app_assoc. reflexivity.
    + now apply batch_cons.
    + intros out Hout. destruct (Hret out Hout) as (Hpaired & Hkeys & ->).
      split; [now constructor|]. cbn [read_keys map].
      split; [now constructor|]. now rewrite <- app_assoc.
    + exact Hmsg.
Qed.

(** The loop over the input files. *)
Lemma process_files_run files :
  forall outs sent r sent',
    process_files py_repr s3 bucket files outs sent = (r, sent') ->
    exists new,
      sent' = sent ++ new
      /\ batch_trace py_repr bucket new
      /\ (forall out,
            r = Returned out ->
            paired_trace py_repr bucket new
            /\ exists results,
                 Forall2 (file_result py_repr) files results
                 /\ out = outs ++ map snd results
                 /\ read_keys new = List.concat (map fst results))
      /\ (forall message,
            r = Raised (ValueErrorWith message) ->
            message = lit "Missing uri in content batch").
Proof.
  induction files as [|file rest IH]; intros outs sent r sent' Hrun.
  - injection Hrun as <- <-. exists []. rewrite !app_nil_r.
    split; [reflexivity|]. split; [apply batch_paired; constructor|]. split.
    + intros out H. injection H as <-. split; [constructor|].
      exists []. split; [constructor|]. now rewrite ?app_nil_r.
    + discriminate.
  - cbn [process_files] in Hrun. unfold ebind at 1 2 3 4, pure in Hrun.
    assert (Hstop : forall e : error,
               (r, sent') = (Raised e, sent) -> (forall m, e <> ValueErrorWith m) ->
               exists new : list s3_request,
                 sent' = sent ++ new
                 /\ batch_trace py_repr bucket new
                 /\ (forall out, r = Returned out ->
                       paired_trace py_repr bucket new
                       /\ exists results,
                            Forall2 (file_result py_repr) (file :: rest) results
                            /\ out = outs ++ map snd results
                            /\ read_keys new = List.concat (map fst results))
                 /\ (forall message, r = Raised (ValueErrorWith message) ->
                       message = lit "Missing uri in content batch")).
    { intros e H He. injection H as -> ->. exists []. rewrite app_nil_r.
      split; [reflexivity|]. split; [apply batch_paired; constructor|].
      split; [discriminate|]. intros message H. injection H as ->.
      exfalso. now apply (He message). }
    destruct (dict_get file (lit "contentBatches") (JArr [])) as [content_batches|e]
      eqn:Hcb.
    2:{ apply (Hstop e); [now symmetry|].
        apply dict_get_error in Hcb. subst e. discriminate. }
    destruct (dict_get file (lit "fileMetadata") (JObj [])) as [file_metadata|e]
      eqn:Hmeta.
    2:{ apply (Hstop e); [now symmetry|].
        apply dict_get_error in Hmeta. subst e. discriminate. }
    destruct (dict_get file (lit "originalFileLocation") (JObj []))
      as [original_file_location|e] eqn:Hloc.
    2:{ apply (Hstop e); [now symmetry|].
        apply dict_get_error in Hloc. subst e. discriminate. }
    destruct (iterate content_batches) as [batches|e] eqn:Hiter.
    2:{ apply (Hstop e); [now symmetry|].
        apply iterate_error in Hiter. subst e. discriminate. }
    clear Hstop. unfold ebind at 1 in Hrun.
    destruct (process_batches py_repr s3 bucket batches [] sent)
      as [[processed|e] sent1] eqn:Hbatches;
      destruct (process_batches_run batches [] sent _ _ Hbatches)
        as (new1 & -> & Htrace1 & Hret1 & Hmsg1).
    2:{ injection Hrun as <- <-. exists new1. split; [reflexivity|].
        split; [assumption|]. split; [discriminate | exact Hmsg1]. }
    destruct (Hret1 processed eq_refl) as (Hpaired1 & Hkeys1 & Hproc).
    cbn [app] in Hproc. subst processed.
    destruct (IH _ _ _ _ Hrun) as (new2 & -> & Htrace2 & Hret2 & Hmsg2).
    exists (new1 ++ new2).
    split; [|split; [|split]].
    + now rewrite app_assoc.
    + now apply batch_app.
    + intros out Hout. destruct (Hret2 out Hout) as (Hpaired2 & results & Hres & -> & Hk2).
      split; [now apply paired_app|].
      eexists ((read_keys new1, _) :: results).
      split; [|split].
      * constructor; [|exact Hres].
        exists content_batches, batches. cbn [fst snd].
        split; [assumption|]. split; [assumption|]. split; [assumption|].
        exists original_file_location, file_metadata.
        split; [assumption|]. split; [assumption|]. reflexivity.
      * cbn [map snd]. now rewrite <- app_assoc.
      * cbn [map fst List.concat]. now rewrite read_keys_app, Hk2.
    + exact Hmsg2.
Qed.

End HandlerTrace.

Section HandlerFacts.

Variable py_repr : json -> str.
Variable s3 : s3_client.

(** The handler, opened up: what it does once both parameters are read. *)
Lemma lambda_handler_unfold event sent :
  lambda_handler py_repr s3 event sent
  = match dict_get event (lit "inputFiles") JNull with
    | Raised e => (Raised e, sent)
    | Returned input_files =>
        match dict_get event (lit "bucketName") JNull with
        | Raised e => (Raised e, sent)
        | Returned input_bucket =>
            if negb (truthy input_files && truthy input_bucket) then
              (Raised (ValueErrorWith (lit "Missing required input parameters")), sent)
            else
              match iterate input_files with
              | Raised e => (Raised e, sent)
              | Returned files =>
                  match process_files py_repr s3 input_bucket files [] sent with
                  | (Returned output_files, sent') =>
                      (Returned (JObj [(lit "outputFiles", JArr output_files)]), sent')
                  | (Raised e, sent') => (Raised e, sent')
                  end
              end
        end
    end.
Proof.
  unfold lambda_handler, ebind, pure, eraise, eret.
  destruct (dict_get event (lit "inputFiles") JNull); [|reflexivity].
  destruct (dict_get event (lit "bucketName") JNull); [|reflexivity].
  destruct (negb _); [reflexivity|].
  destruct (iterate a); reflexivity.
Qed.

End HandlerFacts.

(** X13.  Whatever the object store answers and however the run ends,
    [lambda_handler] only adds requests to those already sent, all to the
    bucket named by the event: each read of a key is followed at once by
    the write of an object [{'fileContents': records}], every record body
    a string of 1 to 100 words, under ["Output/" + key]; only the last
    read may lack its write, and not when the handler returns.  An event
    that is no dict sends nothing. *)
Theorem handler_requests_are_paired
  (py_repr : json -> str) (s3 : s3_client) (event : json) (sent : list s3_request) :
  exists new,
    snd (lambda_handler py_repr s3 event sent) = sent ++ new
    /\ (forall bucket,
          dict_get event (lit "bucketName") JNull = Returned bucket ->
          batch_trace py_repr bucket new
          /\ (forall result,
                fst (lambda_handler py_repr s3 event sent) = Returned result ->
                paired_trace py_repr bucket new))
    /\ ((forall fields, event <> JObj fields) -> new = []).
Proof.
  rewrite lambda_handler_unfold.
  assert (Hnothing : forall e : error,
             exists new : list s3_request,
               snd (@Raised json e, sent) = sent ++ new
               /\ (forall bucket,
                     dict_get event (lit "bucketName") JNull = Returned bucket ->
                     batch_trace py_repr bucket new
                     /\ (forall result, fst (@Raised json e, sent) = Returned result ->
                           paired_trace py_repr bucket new))
               /\ ((forall fields, event <> JObj fields) -> new = [])).
  { intros e. exists []. rewrite app_nil_r. split; [reflexivity|]. split.
    - intros bucket _. split; [apply batch_paired; constructor | discriminate].
    - reflexivity. }
  destruct (dict_get event (lit "inputFiles") JNull) as [input_files|e] eqn:Hfiles;
    [|apply Hnothing].
  destruct (dict_get event (lit "bucketName") JNull) as [input_bucket|e] eqn:Hbucket;
    [|apply Hnothing].
  destruct (negb _); [apply Hnothing|].
  destruct (iterate input_files) as [files|e]; [|apply Hnothing].
  clear Hnothing.
  destruct (process_files py_repr s3 input_bucket files [] sent) as [r sent'] eqn:Hrun.
  destruct (process_files_run py_repr s3 input_bucket files [] sent r sent' Hrun)
    as (new & -> & Htrace & Hret & _).
  exists new. split; [now destruct r|]. split.
  - intros bucket Hb. injection Hb as <-. split; [assumption|].
    intros result Hresult. destruct r as [out|e]; [|discriminate].
    now destruct (Hret out eq_refl).
  - intros Hnot. destruct event; try discriminate. now destruct (Hnot fields).
Qed.

(** A witness for X13: the sample event sends one read and one write. *)
Lemma handler_requests_are_paired_witness :
  exists new,
    snd (lambda_handler (fun _ => []) sample_s3 sample_event []) = [] ++ new
    /\ (forall bucket,
          dict_get sample_event (lit "bucketName") JNull = Returned bucket ->
          batch_trace (fun _ => []) bucket new
          /\ (forall result,
                fst (lambda_handler (fun _ => []) sample_s3 sample_event [])
                = Returned result ->
                paired_trace (fun _ => []) bucket new))
    /\ ((forall fields, sample_event <> JObj fields) -> new = []).
Proof.
  exact (handler_requests_are_paired (fun _ => []) sample_s3 sample_event []).
Defined.

(** X14.  When [lambda_handler] returns, its result is
    [{'outputFiles': [...]}] with one output file per input file, in
    order: each repeats the input file's ['originalFileLocation'] and
    ['fileMetadata'] (empty dict when absent) and lists, batch after
    batch, the key ["Output/" + key]; and the keys read from the store
    during the run are exactly the keys of the batches, in that order. *)
Theorem handler_result_mirrors_input
  (py_repr : json -> str) (s3 : s3_client) (event : json)
  (sent sent' : list s3_request) (result : json) :
  lambda_handler py_repr s3 event sent = (Returned result, sent') ->
  exists input_files files results new,
    dict_get event (lit "inputFiles") JNull = Returned input_files
    /\ iterate input_files = Returned files
    /\ Forall2 (file_result py_repr) files results
    /\ result = JObj [(lit "outputFiles", JArr (map snd results))]
    /\ sent' = sent ++ new
    /\ read_keys new = List.concat (map fst results).
Proof.
  rewrite lambda_handler_unfold. intros H.
  destruct (dict_get event (lit "inputFiles") JNull) as [input_files|e];
    [|discriminate].
  destruct (dict_get event (lit "bucketName") JNull) as [input_bucket|e];
    [|discriminate].
  destruct (negb _); [discriminate|].
  destruct (iterate input_files) as [files|e] eqn:Hiter; [|discriminate].
  destruct (process_files py_repr s3 input_bucket files [] sent) as [r sent1] eqn:Hrun.
  destruct (process_files_run py_repr s3 input_bucket files [] sent r sent1 Hrun)
    as (new & -> & _ & Hret & _).
  destruct r as [out|e]; [|discriminate]. injection H as <- <-.
  destruct (Hret out eq_refl) as (_ & results & Hres & -> & Hkeys).
  exists input_files, files, results, new.
  repeat split; assumption || reflexivity.
Qed.

(** A witness for X14: the run of the sample event. *)
Lemma handler_result_mirrors_input_witness :
  exists input_files files results new,
    dict_get sample_event (lit "inputFiles") JNull = Returned input_files
    /\ iterate input_files = Returned files
    /\ Forall2 (file_result (fun _ => [])) files results
    /\ JObj [(lit "outputFiles",
              JArr [JObj [(lit "originalFileLocation", JObj [(lit "type", JStr (lit "S3"))]);
                          (lit "fileMetadata", JObj [(lit "source", JStr (lit "upload"))]);
                          (lit "contentBatches",
                           JArr [JObj [(lit "key", JStr (lit "Output/in/a.json"))]])]])]
       = JObj [(lit "outputFiles", JArr (map snd results))]
    /\ snd (lambda_handler (fun _ => []) sample_s3 sample_event []) = [] ++ new
    /\ read_keys new = List.concat (map fst results).
Proof.
  apply (handler_result_mirrors_input (fun _ => []) sample_s3 sample_event []).
  vm_compute. reflexivity.
Defined.

(** X15.  [lambda_handler] raises [ValueError("Missing required input
    parameters")] exactly when the event is a dict whose ['inputFiles'] or
    ['bucketName'] is absent or false (an empty list of files included),
    and then nothing has been sent to the store. *)
Theorem handler_missing_parameters
  (py_repr : json -> str) (s3 : s3_client) (event : json) (sent sent' : list s3_request) :
  lambda_handler py_repr s3 event sent
  = (Raised (ValueErrorWith (lit "Missing required input parameters")), sent')
  <->
  (exists input_files input_bucket,
      dict_get event (lit "inputFiles") JNull = Returned input_files
      /\ dict_get event (lit "bucketName") JNull = Returned input_bucket
      /\ truthy input_files && truthy input_bucket = false)
  /\ sent' = sent.
Proof.
  rewrite lambda_handler_unfold. split.
  - intros H.
    destruct (dict_get event (lit "inputFiles") JNull) as [input_files|e] eqn:Hfiles.
    2:{ apply dict_get_error in Hfiles. subst e. discriminate. }
    destruct (dict_get event (lit "bucketName") JNull) as [input_bucket|e] eqn:Hbucket.
    2:{ apply dict_get_error in Hbucket. subst e. discriminate. }
    destruct (truthy input_files && truthy input_bucket) eqn:Htruthy; cbn [negb] in H.
    2:{ injection H as <-. split; [|reflexivity]. eauto. }
    exfalso.
    destruct (iterate input_files) as [files|e] eqn:Hiter.
    2:{ apply iterate_error in Hiter. subst e. discriminate. }
    destruct (process_files py_repr s3 input_bucket files [] sent) as [r sent1] eqn:Hrun.
    destruct (process_files_run py_repr s3 input_bucket files [] sent r sent1 Hrun)
      as (new & _ & _ & _ & Hmsg).
    destruct r as [out|e]; [discriminate|]. injection H as -> _.
    specialize (Hmsg _ eq_refl). vm_compute in Hmsg. discriminate.
  - intros [(input_files & input_bucket & -> & -> & ->) ->]. reflexivity.
Qed.

(** A witness for X15: an event whose list of input files is empty. *)
Lemma handler_missing_parameters_witness :
  lambda_handler (fun _ => []) sample_s3
    (JObj [(lit "inputFiles", JArr []); (lit "bucketName", JStr (lit "bkt"))]) []
  = (Raised (ValueErrorWith (lit "Missing required input parameters")), []).
Proof.
  apply (handler_missing_parameters (fun _ => []) sample_s3).
  split; [|reflexivity].
  exists (JArr []), (JStr (lit "bkt")). repeat split.
Defined.

(* ================================================================== *)
(** ** Searching and trimming strings *)
(* ================================================================== *)

Section FindFacts.

Variable sub : str.

Lemma starts_with_app_inv a b :
  starts_with sub (a ++ b) = true ->
  starts_with sub a = true
  \/ exists rest, sub = a ++ rest /\ rest <> [] /\ starts_with rest b = true.
Proof.
  revert a. induction sub as [|p sub' IH]; intros a H.
  - now left.
  - destruct a as [|x a'].
    + right. exists (p :: sub'). split; [reflexivity|]. split; [discriminate | exact H].
    + cbn [app starts_with] in *.
      apply andb_true_iff in H. destruct H as [Hpx Hrest].
      destruct (IH a' Hrest) as [Hl | (rest & -> & Hne & Hr)].
      * left. now rewrite Hpx, Hl.
      * right. exists rest. apply N.eqb_eq in Hpx. subst x. auto.
Qed.

Lemma starts_with_self t : starts_with sub (sub ++ t) = true.
Proof.
  induction sub as [|p sub' IH]; [reflexivity|].
  cbn [app starts_with]. now rewrite N.eqb_refl, IH.
Qed.

Lemma find_from_unfold s i :
  find_from sub s i
  = if starts_with sub s then i
    else match s with [] => -1 | _ :: rest => find_from sub rest (i + 1) end.
Proof. destruct s; reflexivity. Qed.

(** A search either fails from every start index, or finds the same
    place. *)
Lemma find_from_cases s :
  (forall i, 0 <= i -> find_from sub s i = -1)
  \/ (exists k, 0 <= k /\ forall i, find_from sub s i = i + k).
Proof.
  induction s as [|c s IH].
  - destruct (starts_with sub []) eqn:E.
    + right. exists 0. split; [lia|]. intros i. rewrite find_from_unfold, E. lia.
    + left. intros i _. now rewrite find_from_unfold, E.
  - destruct (starts_with sub (c :: s)) eqn:E.
    + right. exists 0. split; [lia|]. intros i. rewrite find_from_unfold, E. lia.
    + destruct IH as [Hno | (k & Hk & Hyes)].
      * left. intros i Hi. rewrite find_from_unfold, E. apply Hno. lia.
      * right. exists (k + 1). split; [lia|].
        intros i. rewrite find_from_unfold, E, Hyes. lia.
Qed.

Lemma find_absent_from s i : find sub s = -1 -> 0 <= i -> find_from sub s i = -1.
Proof.
  intros H Hi. destruct (find_from_cases s) as [Hno | (k & Hk & Hyes)].
  - now apply Hno.
  - unfold find in H. rewrite Hyes in H. lia.
Qed.

Lemma find_absent_cons c s :
  find sub (c :: s) = -1 -> starts_with sub (c :: s) = false /\ find sub s = -1.
Proof.
  unfold find. rewrite find_from_unfold.
  destruct (starts_with sub (c :: s)); [discriminate|]. intros H. split; [reflexivity|].
  destruct (find_from_cases s) as [Hno | (k & Hk & Hyes)].
  - apply Hno. lia.
  - rewrite Hyes in H. lia.
Qed.

(** No occurrence in [a], and none across the seam of [a ++ b], when the
    first character of [b] does not occur in the pattern. *)
Lemma find_skip_right a :
  forall i c b,
    ~ In c sub -> find sub a = -1 -> 0 <= i ->
    find_from sub (a ++ c :: b) i = find_from sub (c :: b) (i + len a).
Proof.
  induction a as [|x a IH]; intros i c b Hc Ha Hi.
  - cbn [app]. f_equal. unfold len. cbn. lia.
  - destruct (find_absent_cons x a Ha) as [Hstart Ha'].
    rewrite find_from_unfold.
    destruct (starts_with sub ((x :: a) ++ c :: b)) eqn:E.
    + exfalso. apply starts_with_app_inv in E.
      destruct E as [E | (rest & Hsub & Hne & Hr)]; [congruence|].
      destruct rest as [|r rest]; [contradiction|].
      cbn [starts_with] in Hr. apply andb_true_iff in Hr. destruct Hr as [Hr _].
      apply N.eqb_eq in Hr. subst r. apply Hc. rewrite Hsub.
      apply in_or_app. right. now left.
    + cbn [app]. rewrite IH by (assumption || lia).
      f_equal. unfold len. cbn [List.length]. lia.
Qed.

(** The same when the last character of [a] does not occur in the
    pattern. *)
Lemma find_skip_left pre :
  forall i c b,
    ~ In c sub -> find sub (pre ++ [c]) = -1 -> 0 <= i ->
    find_from sub ((pre ++ [c]) ++ b) i = find_from sub b (i + len (pre ++ [c])).
Proof.
  assert (Hseam : forall a c b, In c a -> ~ In c sub ->
            find sub a = -1 -> a <> [] ->
            (forall rest, sub = a ++ rest -> False) ->
            starts_with sub (a ++ b) = false).
  { intros a c b _ _ Ha Hne Hno.
    destruct (starts_with sub (a ++ b)) eqn:E; [|reflexivity]. exfalso.
    apply starts_with_app_inv in E. destruct E as [E | (rest & Hsub & _ & _)].
    - destruct a as [|x a]; [contradiction|].
      destruct (find_absent_cons x a Ha). congruence.
    - eapply Hno. eassumption. }
  induction pre as [|x pre IH]; intros i c b Hc Ha Hi.
  - change (([] ++ [c]) ++ b) with ([c] ++ b). change ([] ++ [c]) with [c] in *.
    rewrite find_from_unfold.
    rewrite (Hseam [c] c b); [reflexivity | now left | assumption | assumption
                               | discriminate |].
    intros rest Hsub. apply Hc. rewrite Hsub. now left.
  - destruct (find_absent_cons x (pre ++ [c]) Ha) as [_ Ha'].
    rewrite find_from_unfold.
    rewrite (Hseam ((x :: pre) ++ [c]) c b).
    + cbn [app]. rewrite IH by (assumption || lia).
      f_equal. unfold len. cbn [app List.length]. lia.
    + apply in_or_app. right. now left.
    + assumption.
    + assumption.
    + discriminate.
    + intros rest Hsub. apply Hc. rewrite Hsub.
      apply in_or_app. left. apply in_or_app. right. now left.
Qed.

End FindFacts.

Section StripFacts.

Lemma lstrip_blanks blanks s :
  Forall (fun c => isspace c = true) blanks -> lstrip (blanks ++ s) = lstrip s.
Proof.
  induction 1 as [|c blanks Hc _ IH]; [reflexivity|].
  cbn [app lstrip]. now rewrite Hc.
Qed.

Lemma lstrip_length s : (List.length (lstrip s) <= List.length s)%nat.
Proof.
  induction s as [|c s IH]; [reflexivity|].
  cbn [lstrip]. destruct (isspace c); cbn [List.length]; lia.
Qed.

Lemma lstrip_full s : List.length (lstrip s) = List.length s -> lstrip s = s.
Proof.
  destruct s as [|c s]; [reflexivity|]. cbn [lstrip].
  destruct (isspace c); [|reflexivity].
  pose proof (lstrip_length s). cbn [List.length]. lia.
Qed.

(** A string that [strip] leaves alone has no blank at either end. *)
Lemma strip_fixed s :
  strip s = s -> lstrip s = s /\ lstrip (rev s) = rev s.
Proof.
  unfold strip. intros H.
  assert (Hlen : List.length (rev (lstrip (rev (lstrip s)))) = List.length s)
    by now rewrite H.
  rewrite length_rev in Hlen.
  pose proof (lstrip_length (rev (lstrip s))) as H1.
  rewrite length_rev in H1.
  pose proof (lstrip_length s) as H2.
  assert (Hs : lstrip s = s) by (apply lstrip_full; lia).
  split; [exact Hs|].
  rewrite Hs in *. apply lstrip_full. rewrite length_rev. lia.
Qed.

(** Blanks around a trimmed string are what [strip] removes. *)
Lemma strip_padded before after s :
  Forall (fun c => isspace c = true) before ->
  Forall (fun c => isspace c = true) after ->
  strip s = s ->
  strip (before ++ s ++ after) = s.
Proof.
  intros Hb Ha Hs. destruct (strip_fixed s Hs) as [Hl Hr].
  unfold strip. rewrite lstrip_blanks by assumption.
  assert (Hrev : Forall (fun c => isspace c = true) (rev after)).
  { rewrite Forall_forall in *. intros c Hc. apply Ha. now apply in_rev. }
  destruct s as [|c s].
  - cbn [app]. rewrite <- (app_nil_r after) at 1.
    rewrite lstrip_blanks by assumption. reflexivity.
  - assert (Hc : isspace c = false).
    { cbn [lstrip] in Hl. destruct (isspace c) eqn:E; [|reflexivity].
      pose proof (lstrip_length s) as Hlen. rewrite Hl in Hlen.
      cbn [List.length] in Hlen. lia. }
    cbn [app lstrip]. rewrite Hc.
    change (c :: s ++ after) with ((c :: s) ++ after).
    rewrite rev_app_distr, lstrip_blanks, Hr by assumption.
    apply rev_involutive.
Qed.

(** Words joined by one blank have no blank at either end. *)
Lemma lstrip_word_first x rest :
  is_word x -> lstrip (x ++ rest) = x ++ rest.
Proof.
  intros [Hne Hx]. destruct x as [|c x]; [contradiction|].
  cbn [app lstrip]. inversion Hx as [|? ? Hc _]; subst. now rewrite Hc.
Qed.

End StripFacts.

(** A slice that takes the middle of three pieces. *)
Lemma slice_middle {A : Type} (x m y : list A) :
  slice (x ++ m ++ y) (len x) (len x + len m) = m.
Proof.
  pose proof (len_nonneg x). pose proof (len_nonneg m). pose proof (len_nonneg y).
  rewrite slice_inside by (rewrite ?len_app; lia).
  unfold len. rewrite Nat2Z.id.
  replace (Z.to_nat (Z.of_nat (List.length x) + Z.of_nat (List.length m)
                     - Z.of_nat (List.length x))) with (List.length m) by lia.
  rewrite skipn_app, skipn_all, Nat.sub_diag. cbn [skipn app].
  apply firstn_app_exact.
Qed.

(* ================================================================== *)
(** ** The mocked runtime *)
(* ================================================================== *)

Section MockFacts.

Lemma find_hit sub a pre c t :
  a = pre ++ [c] -> ~ In c sub -> find sub a = -1 ->
  find sub (a ++ sub ++ t) = len a.
Proof.
  intros -> Hc Ha. unfold find.
  rewrite find_skip_left by (assumption || lia).
  rewrite find_from_unfold, starts_with_self. lia.
Qed.

Lemma find_absent_left sub a pre c b :
  a = pre ++ [c] -> ~ In c sub -> find sub a = -1 -> find sub b = -1 ->
  find sub (a ++ b) = -1.
Proof.
  intros -> Hc Ha Hb. unfold find.
  rewrite find_skip_left by (assumption || lia).
  apply find_absent_from; [assumption|]. pose proof (len_nonneg (pre ++ [c])). lia.
Qed.

Lemma find_absent_right sub a c b :
  ~ In c sub -> find sub a = -1 -> find sub (c :: b) = -1 ->
  find sub (a ++ c :: b) = -1.
Proof.
  intros Hc Ha Hb. unfold find.
  rewrite find_skip_right by (assumption || lia).
  apply find_absent_from; [assumption|]. pose proof (len_nonneg a). lia.
Qed.

Lemma blank_not_in_tags :
  ~ In 32%N (lit "<chunk>") /\ ~ In 10%N (lit "<chunk>")
  /\ ~ In 32%N (lit "</chunk>") /\ ~ In 10%N (lit "</chunk>").
Proof.
  repeat split; intros H; vm_compute in H;
    repeat (destruct H as [H|H]; [discriminate|]); exact H.
Qed.

Lemma user_prompt_pieces whole_document chunk_content :
  user_prompt whole_document chunk_content
  = prompt_opening ++ whole_document ++ prompt_between ++ lit "<chunk>"
    ++ indent ++ chunk_content ++ indent ++ lit "</chunk>" ++ prompt_closing.
Proof.
  unfold user_prompt, prompt_opening, prompt_between, prompt_closing.
  now rewrite <- !app_assoc.
Qed.

Lemma indent_blank : Forall (fun c => isspace c = true) indent.
Proof. repeat constructor. Qed.

(** Where the two tags are found in the prompt of a tag-free document. *)
Lemma mock_tag_positions whole_document chunk_content :
  find (lit "<chunk>") whole_document = -1 ->
  find (lit "</chunk>") whole_document = -1 ->
  find (lit "</chunk>") chunk_content = -1 ->
  find (lit "<chunk>") (user_prompt whole_document chunk_content)
  = len (prompt_opening ++ whole_document ++ prompt_between)
  /\ find (lit "</chunk>") (user_prompt whole_document chunk_content)
     = len ((prompt_opening ++ whole_document ++ prompt_between) ++ lit "<chunk>")
       + len (indent ++ chunk_content ++ indent).
Proof.
  intros Hd1 Hd2 Hc2.
  destruct blank_not_in_tags as (Hs1 & Hn1 & Hs2 & Hn2).
  rewrite user_prompt_pieces. split.
  - replace (prompt_opening ++ whole_document ++ prompt_between ++ lit "<chunk>"
             ++ indent ++ chunk_content ++ indent ++ lit "</chunk>" ++ prompt_closing)
      with ((prompt_opening ++ whole_document ++ prompt_between) ++ lit "<chunk>"
            ++ indent ++ chunk_content ++ indent ++ lit "</chunk>" ++ prompt_closing)
      by now rewrite <- !app_assoc.
    apply (find_hit _ _ (prompt_opening ++ whole_document ++ removelast prompt_between)
             32%N); [|assumption|].
    + rewrite <- !app_assoc. reflexivity.
    + apply (find_absent_left _ _ (removelast prompt_opening) 32%N);
        [reflexivity | assumption | vm_compute; reflexivity |].
      change prompt_between with (10%N :: tl prompt_between).
      apply find_absent_right; [assumption | assumption | vm_compute; reflexivity].
  - set (between := prompt_between ++ lit "<chunk>" ++ indent).
    replace (prompt_opening ++ whole_document ++ prompt_between ++ lit "<chunk>"
             ++ indent ++ chunk_content ++ indent ++ lit "</chunk>" ++ prompt_closing)
      with ((prompt_opening ++ whole_document ++ between ++ chunk_content ++ indent)
            ++ lit "</chunk>" ++ prompt_closing)
      by (unfold between; now rewrite <- !app_assoc).
    replace (len ((prompt_opening ++ whole_document ++ prompt_between) ++ lit "<chunk>")
             + len (indent ++ chunk_content ++ indent))
      with (len (prompt_opening ++ whole_document ++ between ++ chunk_content ++ indent))
      by (unfold between; rewrite !len_app; lia).
    apply (find_hit _ _ (prompt_opening ++ whole_document ++ between ++ chunk_content
                         ++ removelast indent) 32%N); [|assumption|].
    + rewrite <- !app_assoc. reflexivity.
    + apply (find_absent_left _ _ (removelast prompt_opening) 32%N);
        [reflexivity | assumption | vm_compute; reflexivity |].
      change (between ++ chunk_content ++ indent)
        with (10%N :: (tl between ++ chunk_content ++ indent)).
      apply find_absent_right; [assumption | assumption |].
      change (10%N :: tl between ++ chunk_content ++ indent)
        with (between ++ chunk_content ++ indent).
      apply (find_absent_left _ _ (removelast between) 32%N);
        [reflexivity | assumption | vm_compute; reflexivity |].
      change indent with (10%N :: tl indent).
      apply find_absent_right; [assumption | assumption | vm_compute; reflexivity].
Qed.

(** What the mock takes for the chunk is the chunk. *)
Lemma mock_excerpt_is_chunk whole_document chunk_content :
  find (lit "<chunk>") whole_document = -1 ->
  find (lit "</chunk>") whole_document = -1 ->
  find (lit "</chunk>") chunk_content = -1 ->
  strip chunk_content = chunk_content ->
  mock_excerpt (user_prompt whole_document chunk_content) = chunk_content.
Proof.
  intros Hd1 Hd2 Hc2 Hstrip.
  destruct (mock_tag_positions whole_document chunk_content Hd1 Hd2 Hc2) as [Hs He].
  unfold mock_excerpt. rewrite Hs, He.
  set (before := prompt_opening ++ whole_document ++ prompt_between) in *.
  pose proof (len_nonneg before). pose proof (len_nonneg (before ++ lit "<chunk>")).
  pose proof (len_nonneg (indent ++ chunk_content ++ indent)).
  destruct (Z.ltb_spec (-1) (len before)); [|lia].
  destruct (Z.ltb_spec (-1) (len (before ++ lit "<chunk>")
                             + len (indent ++ chunk_content ++ indent))); [|lia].
  cbn [andb].
  replace (len before + 7) with (len (before ++ lit "<chunk>"))
    by (rewrite len_app; reflexivity).
  rewrite user_prompt_pieces.
  replace (prompt_opening ++ whole_document ++ prompt_between ++ lit "<chunk>"
           ++ indent ++ chunk_content ++ indent ++ lit "</chunk>" ++ prompt_closing)
    with ((before ++ lit "<chunk>") ++ (indent ++ chunk_content ++ indent)
          ++ lit "</chunk>" ++ prompt_closing)
    by (unfold before; now rewrite <- !app_assoc).
  rewrite slice_middle.
  apply strip_padded; [apply indent_blank | apply indent_blank | assumption].
Qed.

End MockFacts.

Lemma utf8_encodable_slice (s : str) lo hi :
  utf8_encodable s = true -> utf8_encodable (slice s lo hi) = true.
Proof.
  intros Hs. destruct (slice_segment s lo hi) as (pre & post & Heq).
  rewrite Heq in Hs. eapply utf8_encodable_run. eassumption.
Qed.

Lemma user_prompt_encodable whole_document chunk_content :
  utf8_encodable whole_document = true ->
  utf8_encodable chunk_content = true ->
  utf8_encodable (user_prompt whole_document chunk_content) = true.
Proof.
  intros Hd Hc. rewrite user_prompt_pieces, !utf8_encodable_app, Hd, Hc. reflexivity.
Qed.

Lemma mock_sentence_encodable chunk_content :
  utf8_encodable chunk_content = true ->
  utf8_encodable (MOCK_OPENING ++ slice chunk_content 0 30 ++ MOCK_CLOSING) = true.
Proof.
  intros Hc. rewrite !utf8_encodable_app, utf8_encodable_slice by assumption.
  reflexivity.
Qed.

Lemma mock_answer_for_clean_input
  (py_repr : json -> str) (v : variant) (whole_document chunk_content : str) (n : nat) :
  utf8_encodable whole_document = true ->
  utf8_encodable chunk_content = true ->
  find (lit "<chunk>") whole_document = -1 ->
  find (lit "</chunk>") whole_document = -1 ->
  find (lit "</chunk>") chunk_content = -1 ->
  strip chunk_content = chunk_content ->
  get_chunk_context py_repr v MockBedrockRuntime whole_document chunk_content n
  = (Ok (JStr (MOCK_OPENING ++ slice chunk_content 0 30 ++ MOCK_CLOSING)), S n).
Proof.
  intros He1 He2 Hd1 Hd2 Hc2 Hstrip.
  assert (Hcall : call_bedrock MockBedrockRuntime whole_document chunk_content n
                  = (Ok (JStr (MOCK_OPENING ++ slice chunk_content 0 30 ++ MOCK_CLOSING)),
                     S n)).
  { unfold call_bedrock, MockBedrockRuntime. cbn [invoke_model req_document req_chunk].
    cbv zeta.
    rewrite (json_roundtrip_encodable (user_prompt whole_document chunk_content))
      by now apply user_prompt_encodable.
    unfold mock_context. rewrite mock_excerpt_is_chunk by assumption.
    rewrite json_roundtrip_encodable by now apply mock_sentence_encodable.
    reflexivity. }
  destruct v; [exact Hcall|].
  rewrite harness_context, Hcall. cbn [fst format_value].
  now rewrite mock_sentence_encodable.
Qed.

(** X16.  With [MockBedrockRuntime], when the document and the chunk hold
    no surrogate, neither tag ["<chunk>"] nor ["</chunk>"] occurs in the
    document, ["</chunk>"] does not occur in the chunk, and the chunk has
    no blank at either end, both copies of [get_chunk_context] return
    ["[컨텍스트: 이 청크는 '" + chunk[:30] + "...'로 시작하는 내용에 대한 설명입니다]"]
    after one call: the prompt and the answer go through JSON unchanged,
    the mock recovers the chunk from the prompt, the answer is printed,
    and the fallback of [test.py] is not used. *)
Theorem mock_context_of_tag_free_input
  (py_repr : json -> str) (v : variant) (whole_document chunk_content : str) (n : nat) :
  utf8_encodable whole_document = true ->
  utf8_encodable chunk_content = true ->
  find (lit "<chunk>") whole_document = -1 ->
  find (lit "</chunk>") whole_document = -1 ->
  find (lit "</chunk>") chunk_content = -1 ->
  strip chunk_content = chunk_content ->
  get_chunk_context py_repr v MockBedrockRuntime whole_document chunk_content n
  = (Ok (JStr (MOCK_OPENING ++ slice chunk_content 0 30 ++ MOCK_CLOSING)), S n).
Proof.
  exact (mock_answer_for_clean_input py_repr v whole_document chunk_content n).
Qed.

(** A witness for X16: the document "w1 w2 w3" and the chunk "w1 w2". *)
Lemma mock_context_of_tag_free_input_witness :
  get_chunk_context (fun _ => []) Harness MockBedrockRuntime (doc 3) (lit "w1 w2") 0%nat
  = (Ok (JStr (MOCK_OPENING ++ slice (lit "w1 w2") 0 30 ++ MOCK_CLOSING)), 1%nat).
Proof.
  apply mock_context_of_tag_free_input; vm_compute; reflexivity.
Defined.

(** A high surrogate next to a low one comes back from the mock as the one
    code point the pair encodes: for the chunk "😀" the deployed
    copy gets U+1F600 quoted, and the harness copy the same. *)
Example mock_merges_surrogate_pair :
  get_chunk_context (fun _ => []) Deployed MockBedrockRuntime (doc 3)
    [55357; 56832]%N 0%nat
  = (Ok (JStr (MOCK_OPENING ++ [128512%N] ++ MOCK_CLOSING)), 1%nat)
  /\ get_chunk_context (fun _ => []) Harness MockBedrockRuntime (doc 3)
       [55357; 56832]%N 0%nat
     = (Ok (JStr (MOCK_OPENING ++ [128512%N] ++ MOCK_CLOSING)), 1%nat).
Proof. split; vm_compute; reflexivity. Qed.

(** When the document itself holds the tags, the mock describes a piece
    of the document, not the chunk. *)
Example mock_excerpt_from_tagged_document :
  mock_excerpt (user_prompt (lit "see <chunk> x </chunk> here") (lit "w1 w2")) = lit "x".
Proof. vm_compute. reflexivity. Qed.

(* ================================================================== *)
(** ** A whole run against the mock *)
(* ================================================================== *)

Section MockRun.

Lemma starts_with_app_mono sub a b :
  starts_with sub a = true -> starts_with sub (a ++ b) = true.
Proof.
  revert a. induction sub as [|p sub IH]; intros a H; [reflexivity|].
  destruct a as [|x a]; [discriminate|].
  cbn [app starts_with] in *. apply andb_true_iff in H. destruct H as [-> H].
  now rewrite (IH a H).
Qed.

(** A pattern absent from a string is absent from every run of it. *)
Lemma find_absent_inside sub pre m post :
  find sub (pre ++ m ++ post) = -1 -> find sub m = -1.
Proof.
  induction pre as [|x pre IH]; intros H.
  - cbn [app] in H. revert post H.
    induction m as [|c m IHm]; intros post H.
    + cbn [app] in H. unfold find in *. rewrite find_from_unfold in *.
      destruct sub as [|p sub']; [destruct post; discriminate | reflexivity].
    + cbn [app] in H. destruct (find_absent_cons sub c (m ++ post) H) as [Hstart Hrest].
      unfold find. rewrite find_from_unfold.
      destruct (starts_with sub (c :: m)) eqn:E.
      * apply (starts_with_app_mono sub (c :: m) post) in E.
        cbn [app] in E. congruence.
      * apply find_absent_from; [|lia]. eapply IHm. eassumption.
  - apply IH. cbn [app] in H. now destruct (find_absent_cons sub x _ H).
Qed.

Lemma join_app sep (a b : list str) :
  a <> [] -> b <> [] -> join sep (a ++ b) = join sep a ++ sep ++ join sep b.
Proof.
  intros Ha Hb. induction a as [|x a IH]; [contradiction|].
  destruct a as [|y a].
  - destruct b as [|z b]; [contradiction | reflexivity].
  - change (join sep ((x :: y :: a) ++ b)) with (x ++ sep ++ join sep ((y :: a) ++ b)).
    rewrite IH by discriminate.
    change (join sep (x :: y :: a)) with (x ++ sep ++ join sep (y :: a)).
    now rewrite <- !app_assoc.
Qed.

(** The text of a run of words is a run of the text of the words. *)
Lemma join_segment sep (pre m post : list str) :
  exists p q, join sep (pre ++ m ++ post) = p ++ join sep m ++ q.
Proof.
  destruct m as [|x m].
  - exists (join sep (pre ++ post)), []. cbn [app join]. now rewrite app_nil_r.
  - destruct pre as [|y pre]; destruct post as [|z post].
    + exists [], []. cbn [app]. now rewrite !app_nil_r.
    + exists [], (sep ++ join sep (z :: post)). cbn [app].
      change (x :: m ++ z :: post) with ((x :: m) ++ z :: post).
      now rewrite join_app by discriminate.
    + exists (join sep (y :: pre) ++ sep), []. rewrite !app_nil_r.
      rewrite join_app by discriminate. now rewrite <- !app_assoc.
    + exists (join sep (y :: pre) ++ sep), (sep ++ join sep (z :: post)).
      rewrite join_app by discriminate.
      rewrite (join_app sep (x :: m) (z :: post)) by discriminate.
      now rewrite <- !app_assoc.
Qed.

Lemma join_first sep x (rest : list str) :
  exists tail, join sep (x :: rest) = x ++ tail.
Proof.
  destruct rest; [exists []; cbn; now rewrite app_nil_r | eexists; reflexivity].
Qed.

Lemma join_last sep (xs : list str) :
  xs <> [] -> exists front y, In y xs /\ join sep xs = front ++ y.
Proof.
  induction xs as [|x xs IH]; intros Hne; [contradiction|].
  destruct xs as [|z xs].
  - exists [], x. split; [now left | reflexivity].
  - destruct (IH ltac:(discriminate)) as (front & y & Hy & Heq).
    exists (x ++ sep ++ front), y. split; [now right|].
    change (join sep (x :: z :: xs)) with (x ++ sep ++ join sep (z :: xs)).
    rewrite Heq. now rewrite <- !app_assoc.
Qed.

(** Words joined by one blank have no blank at either end. *)
Lemma strip_join xs :
  Forall is_word xs -> strip (join (lit " ") xs) = join (lit " ") xs.
Proof.
  intros Hxs. destruct xs as [|x xs]; [reflexivity|].
  unfold strip.
  destruct (join_first (lit " ") x xs) as [tail Hfirst].
  destruct (join_last (lit " ") (x :: xs) ltac:(discriminate)) as (front & y & Hy & Hlast).
  assert (Hx : is_word x) by (inversion Hxs; assumption).
  assert (Hyw : is_word (rev y)).
  { rewrite Forall_forall in Hxs. destruct (Hxs y Hy) as [Hne Hall]. split.
    - intros Hrev. apply Hne. apply (f_equal (@rev N)) in Hrev.
      now rewrite rev_involutive in Hrev.
    - rewrite Forall_forall in *. intros c Hc. apply Hall. now apply in_rev. }
  rewrite Hfirst at 1. rewrite lstrip_word_first by assumption. rewrite <- Hfirst.
  rewrite Hlast at 1. rewrite rev_app_distr, lstrip_word_first by assumption.
  rewrite <- rev_app_distr, <- Hlast. apply rev_involutive.
Qed.

(** Every word of a text is a run of the text. *)
Lemma split_from_runs s :
  forall cur before x,
    In x (split_from cur s) ->
    exists pre post, before ++ cur ++ s = (before ++ pre) ++ x ++ post.
Proof.
  induction s as [|c s IH]; intros cur before x Hx.
  - cbn [split_from] in Hx. destruct cur as [|d cur]; [contradiction|].
    destruct Hx as [<-|[]]. exists [], []. now rewrite !app_nil_r.
  - cbn [split_from] in Hx. destruct (isspace c).
    + apply in_app_or in Hx. destruct Hx as [Hx|Hx].
      * destruct cur as [|d cur]; [contradiction|].
        destruct Hx as [<-|[]]. exists [], (c :: s). now rewrite !app_nil_r.
      * destruct (IH [] (before ++ cur ++ [c]) x Hx) as (pre & post & Heq).
        exists (cur ++ [c] ++ pre), post.
        cbn [app] in Heq. rewrite <- !app_assoc in *. exact Heq.
    + destruct (IH (cur ++ [c]) before x Hx) as (pre & post & Heq).
      exists pre, post. rewrite <- !app_assoc in *. exact Heq.
Qed.

Lemma split_runs text x :
  In x (split text) -> exists pre post, text = pre ++ x ++ post.
Proof.
  intros Hx. destruct (split_from_runs text [] [] x Hx) as (pre & post & Heq).
  exists pre, post. exact Heq.
Qed.

(** A pattern without a blank that is in none of the words is not in the
    joined words. *)
Lemma find_absent_join sub xs :
  sub <> [] -> ~ In 32%N sub ->
  Forall (fun x => find sub x = -1) xs ->
  find sub (join (lit " ") xs) = -1.
Proof.
  intros Hsub Hblank Hxs. induction Hxs as [|x xs Hx Hrest IH].
  - destruct sub; [contradiction | reflexivity].
  - destruct xs as [|y xs]; [exact Hx|].
    change (join (lit " ") (x :: y :: xs)) with (x ++ 32%N :: join (lit " ") (y :: xs)).
    apply find_absent_right; [assumption | assumption|].
    change (32%N :: join (lit " ") (y :: xs)) with ([32%N] ++ join (lit " ") (y :: xs)).
    apply (find_absent_left sub [32%N] [] 32%N); [reflexivity | assumption | | exact IH].
    unfold find. rewrite find_from_unfold.
    destruct sub as [|p sub']; [contradiction|].
    cbn [starts_with]. destruct (N.eqb_spec p 32).
    + exfalso. apply Hblank. now left.
    + cbn [andb]. rewrite find_from_unfold. reflexivity.
Qed.

(** A tag absent from a text is absent from every parent window and from
    the text of every run of words of the text. *)
Lemma find_absent_words sub text (xs : list str) :
  sub <> [] -> ~ In 32%N sub ->
  find sub text = -1 ->
  (forall x, In x xs -> In x (split text)) ->
  find sub (join (lit " ") xs) = -1.
Proof.
  intros Hsub Hblank Htext Hxs. apply find_absent_join; try assumption.
  rewrite Forall_forall. intros x Hx.
  destruct (split_runs text x (Hxs x Hx)) as (pre & post & Heq).
  rewrite Heq in Htext. eapply find_absent_inside. eassumption.
Qed.

(** The words of a text that can be encoded make a text that can. *)
Lemma words_encodable text (xs : list str) :
  utf8_encodable text = true ->
  (forall x, In x xs -> In x (split text)) ->
  utf8_encodable (join (lit " ") xs) = true.
Proof.
  intros Htext Hxs. apply utf8_encodable_join. rewrite Forall_forall. intros x Hx.
  destruct (split_runs text x (Hxs x Hx)) as (pre & post & Heq).
  rewrite Heq in Htext. eapply utf8_encodable_run. eassumption.
Qed.

Variable py_repr : json -> str.

(** The inner loop against the mock, for a parent window whose words are
    words of a tag-free text without surrogates. *)
Lemma child_loop_mock v cfg text parent_chunk parent_words offs :
  utf8_encodable text = true ->
  find (lit "<chunk>") text = -1 ->
  find (lit "</chunk>") text = -1 ->
  Forall is_word parent_words ->
  (forall x, In x parent_words -> In x (split text)) ->
  parent_chunk = join (lit " ") parent_words ->
  forall n,
    child_loop py_repr {| source := v; constants := cfg;
                          bedrock_runtime := MockBedrockRuntime |}
      parent_chunk parent_words offs n
    = (Ok (map mock_chunk (flat_map (emit cfg parent_words) offs)),
       (n + List.length (flat_map (emit cfg parent_words) offs))%nat).
Proof.
  intros Henc Ht1 Ht2 Hwords Hin Hparent.
  destruct blank_not_in_tags as (Hs1 & _ & Hs2 & _).
  induction offs as [|i offs IH]; intros n.
  - cbn. now rewrite Nat.add_0_r.
  - cbn [flat_map]. unfold emit at 1 3.
    destruct (skipped cfg (len parent_words) i) eqn:Hsk;
      [rewrite child_loop_skip by assumption; cbn [app]; apply IH|].
    rewrite child_loop_keep by assumption.
    cbn [constants source bedrock_runtime].
    assert (Hchild_in : forall x, In x (child_words cfg parent_words i) -> In x (split text)).
    { intros x Hx. apply Hin. unfold child_words in Hx. eapply slice_In. eassumption. }
    assert (Hchild : utf8_encodable (join (lit " ") (child_words cfg parent_words i)) = true)
      by now apply (words_encodable text).
    unfold bind at 1.
    rewrite mock_answer_for_clean_input.
    + rewrite harness_print_ok.
      * unfold bind at 1. rewrite IH. unfold ret. cbn [app map List.length].
        f_equal. lia.
      * rewrite chunk_line_encodable. unfold contextualized. cbn [format_value].
        now rewrite utf8_encodable_app, mock_sentence_encodable, utf8_encodable_app, Hchild.
    + subst parent_chunk. now apply (words_encodable text).
    + exact Hchild.
    + subst parent_chunk. apply (find_absent_words _ text); try assumption. discriminate.
    + subst parent_chunk. apply (find_absent_words _ text); try assumption. discriminate.
    + apply (find_absent_words _ text); try assumption. discriminate.
    + apply strip_join. unfold child_words. now apply slice_words.
Qed.

Lemma parent_loop_mock v cfg text parents :
  utf8_encodable text = true ->
  find (lit "<chunk>") text = -1 ->
  find (lit "</chunk>") text = -1 ->
  (forall p, In p parents ->
     exists xs, p = join (lit " ") xs /\ Forall is_word xs
                /\ forall x, In x xs -> In x (split text)) ->
  forall windows p_idx n,
    children_of cfg parents = Ok windows ->
    parent_loop py_repr {| source := v; constants := cfg;
                           bedrock_runtime := MockBedrockRuntime |} p_idx parents n
    = (Ok (map mock_chunk windows), (n + List.length windows)%nat).
Proof.
  intros Henc Ht1 Ht2.
  induction parents as [|p rest IH]; intros Hparents windows p_idx n Hwin.
  - injection Hwin as <-. cbn. now rewrite Nat.add_0_r.
  - cbn [children_of] in Hwin. unfold split_child in Hwin.
    rewrite parent_loop_cons. cbn [constants]. unfold bind at 1, lift.
    destruct (range 0 (len (split p)) _) as [offs|e]; [|discriminate].
    cbn [rbind] in Hwin.
    destruct (children_of cfg rest) as [more|e] eqn:Hmore; [|discriminate].
    cbn [rbind] in Hwin. injection Hwin as <-.
    destruct (Hparents p (or_introl eq_refl)) as (xs & Hp & Hxs & Hin).
    assert (Hsplit : split p = xs) by (subst p; now apply split_join).
    unfold bind at 1.
    rewrite (child_loop_mock v cfg text p (split p) offs Henc Ht1 Ht2);
      [| now rewrite Hsplit | now rewrite Hsplit | now rewrite Hsplit].
    unfold bind at 1.
    rewrite (IH (fun q Hq => Hparents q (or_intror Hq)) more _ _ eq_refl).
    unfold ret. rewrite map_app, length_app. f_equal. lia.
Qed.

End MockRun.

(** X17.  A whole run against the mock.  When the document text holds no
    surrogate and neither ["<chunk>"] nor ["</chunk>"] occurs in it,
    [chunk] (either copy, any constants for which the windows exist) with
    [MockBedrockRuntime] returns, for every window of the document in
    order, the mock sentence quoting the first 30 characters of the
    window's text, a blank line and the window's text; it makes one call
    per window and never takes the fallback branch. *)
Theorem mock_run_chunks
  (py_repr : json -> str) (v : variant) (cfg : config) (text : str)
  (windows : list (list str)) (n : nat) :
  utf8_encodable text = true ->
  find (lit "<chunk>") text = -1 ->
  find (lit "</chunk>") text = -1 ->
  document_windows cfg text = Ok windows ->
  chunk py_repr {| source := v; constants := cfg;
                   bedrock_runtime := MockBedrockRuntime |} text n
  = (Ok (map mock_chunk windows), (n + List.length windows)%nat).
Proof.
  intros Henc Ht1 Ht2. unfold document_windows. rewrite chunk_unfold. cbn [constants].
  unfold bind, lift.
  destruct (split_parent cfg text) as [parents|e] eqn:Hparents; [|discriminate].
  cbn [rbind]. intros Hwin.
  apply (parent_loop_mock py_repr v cfg text parents Henc Ht1 Ht2); [|exact Hwin].
  intros p Hp. unfold split_parent in Hparents.
  destruct (range 0 (len (split text)) (PARENT_CHUNK_SIZE cfg)) as [offs|e];
    [|discriminate].
  cbn [rbind] in Hparents. injection Hparents as <-.
  apply in_map_iff in Hp. destruct Hp as (i & <- & _).
  eexists. split; [reflexivity|]. split.
  - apply slice_words, split_words.
  - intros x Hx. eapply slice_In. eassumption.
Qed.

(** A witness for X17: the 92-word document has the two windows
    [w1..w50] and [w31..w90]. *)
Lemma mock_run_chunks_witness :
  chunk (fun _ => [])
        {| source := Harness; constants := test_config;
           bedrock_runtime := MockBedrockRuntime |} (doc 92) 0%nat
  = (Ok (map mock_chunk [ws 1 50; ws 31 90]), (0 + List.length [ws 1 50; ws 31 90])%nat).
Proof.
  apply (mock_run_chunks (fun _ => []) Harness test_config (doc 92)).
  - vm_compute. reflexivity.
  - vm_compute. reflexivity.
  - vm_compute. reflexivity.
  - vm_compute. reflexivity.
Defined.


(* ================================================================== *)
(** ** The guarded context call *)
(* ================================================================== *)


